(** * Graph Skills: the orchestrator and the model router

    A shallow embedding of [orchestrator.ts], [types.ts] and
    [model-router.ts].

    Conventions of the embedding.
    - A JavaScript record used as a dictionary ([Record<string, T>]) is an
      association list in insertion order: [Object.keys] and
      [Object.values] enumerate it front to back, a read takes the first
      binding of the key, a write replaces the binding in place or appends
      a new one.  The list holds the own properties; a read [obj[k]] of a
      key that is not among them finds the member of [Object.prototype]
      of that name, if there is one.  Integer-like keys (which JavaScript
      enumerates first) are outside the model, and so is a write under
      the key [__proto__], which reaches the accessor of
      [Object.prototype] and adds no own property.
    - A [Set<string>] is a [gset string].
    - A thrown exception is a value of [Exception]; a computation that may
      throw returns a [Completion].
    - JavaScript numbers are IEEE doubles.  Counts, lengths, timestamps
      and the numbers inside a [JsValue] are integers ([JNaN] apart);
      prices and costs are rationals, and every arithmetic
      operation on them returns the rounding [fl] of its exact result,
      where [fl] is a variable of which the theorems assume only what
      they need (monotonicity, [fl 0 = 0]).
    - [console.log] and [console.error] lines are not modelled; the one
      [console.warn] of [topologicalSort] is returned next to the order. *)

From Stdlib Require Import Ascii String ZArith QArith Qcanon Qcabs Lia.
From stdpp Require Import base numbers list strings gmap sets relations pretty.

Close Scope Qc_scope.
Close Scope Q_scope.

#[local] Set Warnings "-clear-no-such-hyp".

Open Scope string_scope.

(** ** types.ts

    The optional [metadata] of a node and of a graph is only ever printed
    and is left out.  An optional field is an [option]; the three model
    names are non-empty strings, so [if (node.model)] tests presence. *)

Inductive SubagentType := explore | plan | general_purpose.
Inductive ClaudeModel := haiku | sonnet | opus.

Record GraphNode := {
  agent : SubagentType;
  task : string;
  dependencies : option (list string);
  model : option ClaudeModel;
  output : string
}.

Record Graph := {
  nodes : list (string * GraphNode);
  entry : option string
}.

(** ** Records as dictionaries *)

Section Dict.
Context {V : Type}.

(** The own property [k] of [obj]: the first binding of [k]. *)
Fixpoint get (k : string) (obj : list (string * V)) : option V :=
  match obj with
  | [] => None
  | (k', v) :: rest => if decide (k' = k) then Some v else get k rest
  end.

(** [obj[k] = v] *)
Fixpoint set (k : string) (v : V) (obj : list (string * V))
  : list (string * V) :=
  match obj with
  | [] => [(k, v)]
  | (k', v') :: rest =>
      if decide (k' = k) then (k, v) :: rest else (k', v') :: set k v rest
  end.

Definition Object_keys (obj : list (string * V)) : list string := obj.*1.
Definition Object_values (obj : list (string * V)) : list V := obj.*2.
End Dict.

(** The names that an object literal inherits from [Object.prototype]:
    eleven functions, and the accessor [__proto__], which reads as the
    prototype object itself.  None of them has a property [dependencies],
    [task] or [output]. *)
Definition Object_prototype_names : list string :=
  ["constructor"; "__defineGetter__"; "__defineSetter__"; "hasOwnProperty";
   "__lookupGetter__"; "__lookupSetter__"; "isPrototypeOf";
   "propertyIsEnumerable"; "toString"; "valueOf"; "__proto__";
   "toLocaleString"].

(** What the read [obj[k]] finds: an own property, a member of
    [Object.prototype], or nothing ([undefined]). *)
Inductive Member (V : Type) :=
  | Own (v : V)
  | Inherited
  | Missing.
Arguments Own {V} v.
Arguments Inherited {V}.
Arguments Missing {V}.

(** [obj[k]] *)
Definition read {V} (k : string) (obj : list (string * V)) : Member V :=
  match get k obj with
  | Some v => Own v
  | None => if decide (k ∈ Object_prototype_names) then Inherited else Missing
  end.

(** ** JavaScript values, exceptions *)

#[warnings="-register-all"] Inductive JsValue :=
  | JUndefined
  | JNull
  | JBool (b : bool)
  | JNum (z : Z)
  | JNaN
  | JStr (s : string)
  | JArr (items : list JsValue)
  | JObj (props : list (string * JsValue))
  (** the member [name] of [Object.prototype] *)
  | JBuiltin (name : string).

(** ToBoolean *)
Definition truthy (v : JsValue) : bool :=
  match v with
  | JUndefined | JNull | JNaN => false
  | JBool b => b
  | JNum z => negb (z =? 0)%Z
  | JStr s => negb (String.eqb s EmptyString)
  | JArr _ | JObj _ | JBuiltin _ => true
  end.

(** [a === b] on primitives and on the members of [Object.prototype];
    two object or array values are held to be distinct references. *)
Definition strict_equals (a b : JsValue) : bool :=
  match a, b with
  | JUndefined, JUndefined | JNull, JNull => true
  | JBool x, JBool y => Bool.eqb x y
  | JNum x, JNum y => (x =? y)%Z
  | JStr x, JStr y => String.eqb x y
  | JBuiltin x, JBuiltin y => String.eqb x y
  | _, _ => false
  end.

(** [a || b] *)
Definition or_else (a b : JsValue) : JsValue := if truthy a then a else b.

Inductive Exception :=
  | Error (message : string)
  | TypeError (message : string)
  | NonError (text : string).

(** [error instanceof Error ? error.message : String(error)] *)
Definition error_text (e : Exception) : string :=
  match e with
  | Error m | TypeError m => m
  | NonError s => s
  end.

Inductive Completion (A : Type) :=
  | Normal (a : A)
  | Throw (e : Exception).
Arguments Normal {A} a.
Arguments Throw {A} e.

(** ** String and array methods *)

(** [toLowerCase], on the letters A to Z. *)
Definition lower_char (c : ascii) : ascii :=
  let n := nat_of_ascii c in
  if bool_decide (65 ≤ n ≤ 90)%nat then ascii_of_nat (n + 32) else c.

Fixpoint toLowerCase (s : string) : string :=
  match s with
  | EmptyString => EmptyString
  | String c s' => String (lower_char c) (toLowerCase s')
  end.

(** [s.includes(sub)] *)
Fixpoint includes (s sub : string) : bool :=
  String.prefix sub s ||
  match s with
  | EmptyString => false
  | String _ s' => includes s' sub
  end.

(** [l.join(sep)] *)
Fixpoint join (sep : string) (l : list string) : string :=
  match l with
  | [] => EmptyString
  | [x] => x
  | x :: rest => x ++ sep ++ join sep rest
  end.

(** [Array.prototype.find]: the callback receives the element and its
    index; [None] stands for the [undefined] of an unsuccessful search. *)
Fixpoint find_from {A} (callback : A → nat → bool) (index : nat)
    (l : list A) : option A :=
  match l with
  | [] => None
  | x :: rest =>
      if callback x index then Some x else find_from callback (S index) rest
  end.

Definition Array_find {A} (callback : A → nat → bool) (l : list A)
  : option A := find_from callback 0 l.

(** The line feed of the template literals. *)
Definition nl : string := String (ascii_of_nat 10) EmptyString.

(** ** model-router.ts *)

Record ModelConfig := {
  name : ClaudeModel;
  costPer1MInputTokens : Qc;
  costPer1MOutputTokens : Qc;
  maxTokens : Z;
  strengths : list string
}.

Record ModelRoutingDecision := {
  routed_agent : SubagentType;
  routed_model : ClaudeModel;
  reasoning : string;
  estimatedCost : Qc
}.

Inductive Complexity := low | medium | high.

Record RouterContext := {
  fileCount : option Z;
  complexity : option Complexity
}.

Definition DEFAULT_MODELS (a : SubagentType) : ClaudeModel :=
  match a with
  | explore => haiku
  | plan => sonnet
  | general_purpose => sonnet
  end.

(** [context.complexity === 'high'] *)
Definition is_high (c : option Complexity) : bool :=
  match c with
  | Some high => true
  | _ => false
  end.

Section ModelRouter.
(** rounding to the nearest double *)
Variable fl : Qc → Qc.

Definition MODEL_CONFIGS (m : ClaudeModel) : ModelConfig :=
  match m with
  | haiku =>
      {| name := haiku;
         costPer1MInputTokens := fl (Q2Qc (80 # 100));
         costPer1MOutputTokens := fl (Q2Qc 4);
         maxTokens := 200000;
         strengths := ["Fast exploration"; "File scanning";
                       "Simple extraction"; "Pattern matching";
                       "Quick analysis"] |}
  | sonnet =>
      {| name := sonnet;
         costPer1MInputTokens := fl (Q2Qc 15);
         costPer1MOutputTokens := fl (Q2Qc 75);
         maxTokens := 200000;
         strengths := ["Deep analysis"; "Complex reasoning";
                       "Architecture design"; "Tutorial generation";
                       "Code understanding"] |}
  | opus =>
      {| name := opus;
         costPer1MInputTokens := fl (Q2Qc 75);
         costPer1MOutputTokens := fl (Q2Qc 375);
         maxTokens := 200000;
         strengths := ["Highest quality"; "Most complex tasks";
                       "Critical decisions"; "Novel challenges"] |}
  end.

Definition estimateCost (m : ClaudeModel) (inputTokens outputTokens : Qc)
  : Qc :=
  let config := MODEL_CONFIGS m in
  let inputCost :=
    (fl (fl (inputTokens / Q2Qc 1000000) * costPer1MInputTokens config))%Qc in
  let outputCost :=
    (fl (fl (outputTokens / Q2Qc 1000000) * costPer1MOutputTokens config))%Qc in
  fl (inputCost + outputCost)%Qc.

(** [s.includes(k1) || s.includes(k2) || ...] *)
Definition any_includes (s : string) (keywords : list string) : bool :=
  existsb (includes s) keywords.

(** [context.fileCount && context.fileCount > 50] *)
Definition large_file_count (context : RouterContext) : bool :=
  match fileCount context with
  | Some n => negb (n =? 0)%Z && (50 <? n)%Z
  | None => false
  end.

Definition selectModelByHeuristics (node : GraphNode)
    (context : RouterContext) : ClaudeModel :=
  let task := toLowerCase (task node) in
  if any_includes task
       ["scan"; "explore"; "find"; "identify"; "count"; "list"]
  then haiku
  else if any_includes task
       ["analyze"; "understand"; "architecture"; "design"; "pattern"]
  then sonnet
  else if any_includes task ["generate"; "create"; "write"; "compile"]
  then sonnet
  else if large_file_count context then haiku
  else if is_high (complexity context) then sonnet
  else DEFAULT_MODELS (agent node).

Definition explainSelection (node : GraphNode) (context : RouterContext)
    (m : ClaudeModel) : string :=
  let reasons :=
    match m with
    | haiku =>
        "Optimized for fast, cost-effective execution" ::
        (if large_file_count context then
           ["Large file count (" ++ pretty (default 0%Z (fileCount context))
            ++ ") benefits from efficient scanning"]
         else [])
    | sonnet =>
        "Requires sophisticated reasoning and analysis" ::
        (if is_high (complexity context) then
           ["High complexity task needs advanced capabilities"]
         else [])
    | opus => ["Highest quality required for critical task"]
    end in
  join "; " reasons.

Definition selectModel (node : GraphNode) (context : RouterContext)
  : ModelRoutingDecision :=
  match model node with
  | Some m =>
      {| routed_agent := agent node;
         routed_model := m;
         reasoning := "Explicitly specified in node definition";
         estimatedCost := estimateCost m (Q2Qc 10000) (Q2Qc 2000) |}
  | None =>
      let m := selectModelByHeuristics node context in
      {| routed_agent := agent node;
         routed_model := m;
         reasoning := explainSelection node context m;
         estimatedCost := estimateCost m (Q2Qc 10000) (Q2Qc 2000) |}
  end.
End ModelRouter.

(** ** orchestrator.ts: topologicalSort *)

Inductive Outcome (A : Type) :=
  | Done (a : A)
  | Thrown (e : Exception)
  | OutOfFuel.
Arguments Done {A} a.
Arguments Thrown {A} e.
Arguments OutOfFuel {A}.

Record SortState := {
  visited : gset string;
  order : list string
}.

Record SortResult := {
  sorted : list string;
  (** the node ids of the [console.warn] line; [[]] when nothing is
      printed *)
  warned_unreachable : list string
}.

Definition deps_of (node : GraphNode) : list string :=
  default [] (dependencies node).

(** [!graph.nodes[nodeId].dependencies?.length] *)
Definition no_dependencies (node : GraphNode) : bool :=
  match dependencies node with
  | None => true
  | Some deps => bool_decide (length deps = 0)
  end.

Section TopologicalSort.
Variable graph : Graph.

(** The [for (const depId of node.dependencies)] loop in the body of
    [visit], over the recursive call [visit']. *)
Fixpoint visit_dependencies (visit' : string → SortState → Outcome SortState)
    (nodeId : string) (deps : list string) (st : SortState)
  : Outcome SortState :=
  match deps with
  | [] => Done st
  | depId :: rest =>
      match read depId (nodes graph) with
      | Missing =>
          Thrown (Error ("Dependency not found: " ++ depId
                         ++ " (required by " ++ nodeId ++ ")"))
      | Own _ | Inherited =>
          match visit' depId st with
          | Done st' => visit_dependencies visit' nodeId rest st'
          | other => other
          end
      end
  end.

(** The arrow function [visit].  Its recursion is bounded by [fuel];
    [topologicalSort_terminates] shows that the bound [topologicalSort]
    starts from is never reached.  A member of [Object.prototype] read as
    a node has no [dependencies]. *)
Fixpoint visit (fuel : nat) (nodeId : string) (st : SortState)
  : Outcome SortState :=
  match fuel with
  | O => OutOfFuel
  | S fuel' =>
      if decide (nodeId ∈ visited st) then Done st
      else
        let st1 := {| visited := {[nodeId]} ∪ visited st;
                      order := order st |} in
        match read nodeId (nodes graph) with
        | Missing =>
            Thrown (TypeError
              "Cannot read properties of undefined (reading 'dependencies')")
        | Inherited =>
            Done {| visited := visited st1;
                    order := (order st1 ++ [nodeId])%list |}
        | Own node =>
            let after :=
              match dependencies node with
              | None => Done st1
              | Some deps =>
                  visit_dependencies (visit fuel') nodeId deps st1
              end in
            match after with
            | Done st2 =>
                Done {| visited := visited st2;
                        order := (order st2 ++ [nodeId])%list |}
            | other => other
            end
        end
  end.

(** [Object.keys(graph.nodes).filter(nodeId =>
    !graph.nodes[nodeId].dependencies?.length)] *)
Definition default_entries : list string :=
  filter (λ nodeId, from_option no_dependencies false
                      (get nodeId (nodes graph)))
         (Object_keys (nodes graph)).

(** [graph.entry ? [graph.entry] : ...]; the empty string is falsy. *)
Definition entryNodes : list string :=
  match entry graph with
  | Some e => if decide (e = EmptyString) then default_entries else [e]
  | None => default_entries
  end.

Fixpoint visit_entries (fuel : nat) (entries : list string)
    (st : SortState) : Outcome SortState :=
  match entries with
  | [] => Done st
  | entryNode :: rest =>
      match visit fuel entryNode st with
      | Done st' => visit_entries fuel rest st'
      | other => other
      end
  end.

Definition topologicalSort : Outcome SortResult :=
  match visit_entries (S (length (nodes graph))) entryNodes
                      {| visited := ∅; order := [] |} with
  | Done st =>
      Done {| sorted := order st;
              warned_unreachable :=
                filter (λ nodeId, nodeId ∉ visited st)
                       (Object_keys (nodes graph)) |}
  | Thrown e => Thrown e
  | OutOfFuel => OutOfFuel
  end.
End TopologicalSort.

(** ** orchestrator.ts: the execution context and the results *)

Record ContextMetadata := {
  startTime : Z;
  completedNodes : list string;
  failedNodes : list string
}.

Record ExecutionContext := {
  outputs : list (string * JsValue);
  input : JsValue;
  metadata : ContextMetadata
}.

Record NodeMetrics := {
  node_startTime : Z;
  node_endTime : Z;
  duration : Z;
  tokensUsed : option nat
}.

Record NodeResult := {
  nodeId : string;
  success : bool;
  node_output : JsValue;
  error : option string;
  metrics : NodeMetrics
}.

Record GraphMetrics := {
  totalDuration : Z;
  totalTokens : nat;
  nodeCount : nat;
  successCount : nat;
  failureCount : nat
}.

Record GraphResult := {
  graph_success : bool;
  graph_output : JsValue;
  nodeResults : list (string * NodeResult);
  graph_metrics : GraphMetrics
}.

(** [prepareDependencyInputs]: the callback of [find] is
    [(_, key) => key === depId], its second argument being the index of the
    element in [Object.values(context.outputs)]. *)
Definition prepareDependencyInputs (node : GraphNode)
    (context : ExecutionContext) : list (string * JsValue) :=
  match dependencies node with
  | None => []
  | Some deps =>
      fold_left
        (λ inputs depId,
           let depNode :=
             Array_find
               (λ _ key, strict_equals (JNum (Z.of_nat key)) (JStr depId))
               (Object_values (outputs context)) in
           match depNode with
           | Some JUndefined | None => inputs
           | Some v => set depId v inputs
           end)
        deps []
  end.

Definition estimateComplexity (task : string) : Complexity :=
  let taskLower := toLowerCase task in
  if includes taskLower "analyze architecture"
     || includes taskLower "deep analysis"
     || includes taskLower "complex pattern"
     || includes taskLower "design"
  then high
  else if includes taskLower "scan"
          || includes taskLower "list"
          || includes taskLower "count"
          || includes taskLower "find"
  then low
  else medium.

(** [Math.ceil(n / 4)] for a length [n] *)
Definition ceil_div4 (n : nat) : nat := (n + 3) / 4.

(** A value interpolated in a template literal. *)
Definition interpolate (o : option string) : string := default "undefined" o.

Section Orchestrator.
Variable fl : Qc → Qc.

(** [JSON.stringify(v)] and [JSON.stringify(v, null, 2)]: [None] is the
    result [undefined]; a cyclic structure or a BigInt makes them throw. *)
Variable JSON_stringify : JsValue → Completion (option string).
Variable JSON_stringify_indented : JsValue → Completion (option string).

(** The world outside the orchestrator: the clock read by [Date.now()]
    and the execution backend behind [invokeSubagent], which the source
    only simulates.  Both may depend on, and change, the state of the
    world. *)
Context {World : Type}.
Variable Date_now : World → Z * World.
Variable invokeSubagent :
  SubagentType → ClaudeModel → string → list (string * JsValue) →
  World → Completion JsValue * World.

Fixpoint dependency_sections (entries : list (string * JsValue))
    (prompt : string) : Completion string :=
  match entries with
  | [] => Normal prompt
  | (depId, out) :: rest =>
      match JSON_stringify_indented out with
      | Throw e => Throw e
      | Normal text =>
          dependency_sections rest
            (prompt ++ nl ++ depId ++ ":" ++ nl ++ interpolate text ++ nl)
      end
  end.

Definition instructions : string :=
  "Instructions:" ++ nl
  ++ "1. Complete the task described above" ++ nl
  ++ "2. Use the provided context from dependencies" ++ nl
  ++ "3. Return results in a structured format" ++ nl
  ++ "4. Be concise and focus on the specific task" ++ nl.

Definition buildPrompt (node : GraphNode)
    (dependencyInputs : list (string * JsValue)) (originalInput : JsValue)
  : Completion string :=
  let prompt := "Task: " ++ task node ++ nl ++ nl in
  let with_input :=
    if truthy originalInput then
      match JSON_stringify_indented originalInput with
      | Throw e => Throw e
      | Normal text =>
          Normal (prompt ++ "Original Input:" ++ nl ++ interpolate text
                  ++ nl ++ nl)
      end
    else Normal prompt in
  match with_input with
  | Throw e => Throw e
  | Normal prompt =>
      let with_deps :=
        if bool_decide (0 < length (Object_keys dependencyInputs))%nat then
          match dependency_sections dependencyInputs
                  (prompt ++ "Context from Dependencies:" ++ nl) with
          | Throw e => Throw e
          | Normal prompt => Normal (prompt ++ nl)
          end
        else Normal prompt in
      match with_deps with
      | Throw e => Throw e
      | Normal prompt => Normal (prompt ++ instructions)
      end
  end.

(** [JSON.stringify(output).length] throws a [TypeError] when the
    stringification is [undefined]. *)
Definition estimateTokens (prompt : string) (out : JsValue)
  : Completion nat :=
  let promptTokens := ceil_div4 (String.length prompt) in
  match JSON_stringify out with
  | Throw e => Throw e
  | Normal None =>
      Throw (TypeError
        "Cannot read properties of undefined (reading 'length')")
  | Normal (Some text) =>
      Normal (promptTokens + ceil_div4 (String.length text))
  end.

(** The body of the [try] block of [executeNode]. *)
Definition attemptNode (id : string) (node : GraphNode)
    (context : ExecutionContext) (startTime : Z) (w : World)
  : Completion NodeResult * World :=
  let routing :=
    selectModel fl node
      {| fileCount := None;
         complexity := Some (estimateComplexity (task node)) |} in
  let nodeInput := prepareDependencyInputs node context in
  match buildPrompt node nodeInput (input context) with
  | Throw e => (Throw e, w)
  | Normal prompt =>
      match invokeSubagent (routed_agent routing) (routed_model routing)
              prompt nodeInput w with
      | (Throw e, w) => (Throw e, w)
      | (Normal out, w) =>
          let '(endTime, w) := Date_now w in
          match estimateTokens prompt out with
          | Throw e => (Throw e, w)
          | Normal tokens =>
              (Normal {| nodeId := id;
                         success := true;
                         node_output := out;
                         error := None;
                         metrics :=
                           {| node_startTime := startTime;
                              node_endTime := endTime;
                              duration := endTime - startTime;
                              tokensUsed := Some tokens |} |}, w)
          end
      end
  end.

Definition executeNode (id : string) (node : GraphNode)
    (context : ExecutionContext) (w : World) : NodeResult * World :=
  let '(startTime, w) := Date_now w in
  match attemptNode id node context startTime w with
  | (Normal result, w) => (result, w)
  | (Throw e, w) =>
      let '(endTime, w) := Date_now w in
      ({| nodeId := id;
          success := false;
          node_output := JNull;
          error := Some (error_text e);
          metrics :=
            {| node_startTime := startTime;
               node_endTime := endTime;
               duration := endTime - startTime;
               tokensUsed := None |} |}, w)
  end.

(** [executeNode] on a member of [Object.prototype] read as a node: its
    [task] is [undefined], so [estimateComplexity] throws on
    [task.toLowerCase()], inside the [try] block and before the backend
    is called. *)
Definition executeNode_inherited (id : string) (w : World)
  : NodeResult * World :=
  let '(startTime, w) := Date_now w in
  let '(endTime, w) := Date_now w in
  ({| nodeId := id;
      success := false;
      node_output := JNull;
      error :=
        Some (error_text (TypeError
          "Cannot read properties of undefined (reading 'toLowerCase')"));
      metrics :=
        {| node_startTime := startTime;
           node_endTime := endTime;
           duration := endTime - startTime;
           tokensUsed := None |} |}, w).

(** The variables of [execute] that its [for] loop updates. *)
Record RunState := {
  context : ExecutionContext;
  results : list (string * NodeResult);
  tokens : nat
}.

Definition record_success (node : GraphNode) (result : NodeResult)
    (s : RunState) : RunState :=
  let ctx := context s in
  {| context :=
       {| outputs := set (output node) (node_output result) (outputs ctx);
          input := input ctx;
          metadata :=
            {| startTime := startTime (metadata ctx);
               completedNodes :=
                 (completedNodes (metadata ctx) ++ [nodeId result])%list;
               failedNodes := failedNodes (metadata ctx) |} |};
     results := set (nodeId result) result (results s);
     tokens :=
       match tokensUsed (metrics result) with
       | Some (S n) => tokens s + S n
       | _ => tokens s
       end |}.

Definition record_failure (result : NodeResult) (s : RunState)
  : RunState :=
  let ctx := context s in
  {| context :=
       {| outputs := outputs ctx;
          input := input ctx;
          metadata :=
            {| startTime := startTime (metadata ctx);
               completedNodes := completedNodes (metadata ctx);
               failedNodes :=
                 (failedNodes (metadata ctx) ++ [nodeId result])%list |} |};
     results := set (nodeId result) result (results s);
     tokens := tokens s |}.

(** The loop [for (const nodeId of executionOrder)].  [executeNode]
    catches every exception of its body, so the [catch] clause of the
    loop is never entered; reading [node.agent] of a missing node throws
    outside the [try]. *)
Fixpoint run_nodes (graph : Graph) (executionOrder : list string)
    (s : RunState) (w : World) : Completion RunState * World :=
  match executionOrder with
  | [] => (Normal s, w)
  | id :: rest =>
      match read id (nodes graph) with
      | Missing =>
          (Throw (TypeError
             "Cannot read properties of undefined (reading 'agent')"), w)
      | Inherited =>
          let '(result, w) := executeNode_inherited id w in
          (Normal (record_failure result s), w)
      | Own node =>
          let '(result, w) := executeNode id node (context s) w in
          if success result then
            run_nodes graph rest (record_success node result s) w
          else (Normal (record_failure result s), w)
      end
  end.

(** [context.outputs[key]] *)
Definition read_output (key : string) (context : ExecutionContext)
  : JsValue :=
  match read key (outputs context) with
  | Own v => v
  | Inherited => JBuiltin key
  | Missing => JUndefined
  end.

(** [context.outputs[node.output]] *)
Definition stored_output (node : GraphNode) (context : ExecutionContext)
  : JsValue :=
  read_output (output node) context.

Definition extractFinalOutput (graph : Graph) (context : ExecutionContext)
    (executionOrder : list string) : Completion JsValue :=
  match last executionOrder with
  | None => Normal JNull
  | Some lastNodeId =>
      match read lastNodeId (nodes graph) with
      | Missing =>
          Throw (TypeError
            "Cannot read properties of undefined (reading 'output')")
      | Inherited =>
          (* [lastNode.output] is [undefined], the key "undefined" *)
          Normal (or_else (read_output "undefined" context) JNull)
      | Own lastNode =>
          Normal (or_else (stored_output lastNode context) JNull)
      end
  end.

Definition initial_state (input : JsValue) (startTime : Z) : RunState :=
  {| context :=
       {| outputs := [];
          input := input;
          metadata := {| startTime := startTime;
                         completedNodes := [];
                         failedNodes := [] |} |};
     results := [];
     tokens := 0 |}.

(** [execute], up to the end of its loop: the start time, the execution
    order and the loop variables. *)
Definition run_graph (graph : Graph) (input : JsValue) (w : World)
  : Outcome (Z * list string * RunState) * World :=
  let '(startTime, w) := Date_now w in
  match topologicalSort graph with
  | Thrown e => (Thrown e, w)
  | OutOfFuel => (OutOfFuel, w)
  | Done sort =>
      let executionOrder := sorted sort in
      match run_nodes graph executionOrder (initial_state input startTime)
              w with
      | (Throw e, w) => (Thrown e, w)
      | (Normal s, w) => (Done (startTime, executionOrder, s), w)
      end
  end.

(** [execute], from the comment [// Compile final result] on. *)
Definition compile_result (graph : Graph) (startTime : Z)
    (executionOrder : list string) (s : RunState) (w : World)
  : Outcome GraphResult * World :=
  let '(endTime, w) := Date_now w in
  let meta := metadata (context s) in
  match extractFinalOutput graph (context s) executionOrder with
  | Throw e => (Thrown e, w)
  | Normal finalOutput =>
      (Done {| graph_success := bool_decide (length (failedNodes meta) = 0);
               graph_output := finalOutput;
               nodeResults := results s;
               graph_metrics :=
                 {| totalDuration := endTime - startTime;
                    totalTokens := tokens s;
                    nodeCount := length executionOrder;
                    successCount := length (completedNodes meta);
                    failureCount := length (failedNodes meta) |} |}, w)
  end.

Definition execute (graph : Graph) (input : JsValue) (w : World)
  : Outcome GraphResult * World :=
  match run_graph graph input w with
  | (Done (startTime, executionOrder, s), w) =>
      compile_result graph startTime executionOrder s w
  | (Thrown e, w) => (Thrown e, w)
  | (OutOfFuel, w) => (OutOfFuel, w)
  end.

End Orchestrator.

(** ** The vocabulary of the statements *)

(** [dep g a b]: node [a] of the graph declares the dependency [b]. *)
Definition dep (g : Graph) : relation string :=
  λ a b, ∃ node, get a (nodes g) = Some node ∧ b ∈ deps_of node.

Definition keys (g : Graph) : gset string :=
  list_to_set (Object_keys (nodes g)).

(** [graph.nodes[id]] is not [undefined]: [id] is a key of the node map
    or a name inherited from [Object.prototype]. *)
Definition found (g : Graph) (id : string) : Prop :=
  is_Some (get id (nodes g)) ∨ id ∈ Object_prototype_names.

Section SortSpec.
Variable g : Graph.

(** The state of the traversal while the calls of [visit] on the nodes
    [stk] are in progress, innermost first. *)
Record Inv (stk : list string) (st : SortState) : Prop := {
  inv_visited : ∀ x, x ∈ visited st ↔ x ∈ order st ∨ x ∈ stk;
  inv_nodup : NoDup (order st);
  inv_disjoint : ∀ x, x ∈ order st → x ∉ stk;
  inv_present : ∀ x, x ∈ visited st → found g x;
  inv_deps : ∀ m d, m ∈ order st → dep g m d → found g d ∧ d ∈ visited st;
  inv_before : ∀ i m d, order st !! i = Some m → dep g m d →
    (∃ j, j < i ∧ order st !! j = Some d) ∨ tc (dep g) d m
}.

(** What a completed call [visit n] (or a completed loop over the
    dependencies [from] of one node) has added to the state. *)
Definition grows (from : list string) (st st' : SortState) : Prop :=
  visited st ⊆ visited st' ∧
  (∀ d, d ∈ from → found g d ∧ d ∈ visited st') ∧
  ∃ new, order st' = (order st ++ new)%list ∧
         ∀ m, m ∈ new → ∃ d, d ∈ from ∧ rtc (dep g) d m.

(** The two ways in which the traversal from [n] throws. *)
Definition missing_from (n : string) (e : Exception) : Prop :=
  (¬ found g n ∧
   e = TypeError
         "Cannot read properties of undefined (reading 'dependencies')") ∨
  (∃ m d, rtc (dep g) n m ∧ dep g m d ∧ ¬ found g d ∧
          e = Error ("Dependency not found: " ++ d
                     ++ " (required by " ++ m ++ ")")).
End SortSpec.

(** No node reaches itself along dependency edges. *)
Definition acyclic (g : Graph) : Prop := ∀ x, ¬ tc (dep g) x x.

(** Every declared dependency id is a key of the node map. *)
Definition dependencies_present (g : Graph) : Prop :=
  ∀ a b, dep g a b → is_Some (get b (nodes g)).

(** Every entry point is a key of the node map; by
    [default_entries_present] only a declared entry can fail to be. *)
Definition entries_present (g : Graph) : Prop :=
  ∀ e, e ∈ entryNodes g → is_Some (get e (nodes g)).

(** [x] is an entry point or a dependency, direct or not, of one. *)
Definition reachable_from_entry (g : Graph) (x : string) : Prop :=
  ∃ e, e ∈ entryNodes g ∧ rtc (dep g) e x.

(** [d] stands in [l] at a position before one of [m]. *)
Definition strictly_earlier (l : list string) (d m : string) : Prop :=
  ∃ i j, j < i ∧ l !! j = Some d ∧ l !! i = Some m.

(** No assignment of a run over [ids] is under the key [__proto__], which
    would reach the accessor of [Object.prototype] instead of adding a
    property: [__proto__] is neither one of [ids] nor the output key of
    one of their nodes. *)
Definition ordinary_keys (g : Graph) (ids : list string) : Prop :=
  ("__proto__" ∉ ids) ∧
  (∀ id node, id ∈ ids → get id (nodes g) = Some node →
              output node ≠ "__proto__").

(** What holds of the loop variables after every iteration of the loop
    of [execute] over [executionOrder]. *)
Definition run_invariant (executionOrder : list string) (s : RunState)
  : Prop :=
  let meta := metadata (context s) in
  (length (failedNodes meta) ≤ 1)%nat ∧
  Object_keys (results s)
    = (completedNodes meta ++ failedNodes meta)%list ∧
  (completedNodes meta ++ failedNodes meta)%list `prefix_of` executionOrder ∧
  (∀ id, id ∈ completedNodes meta →
         ∃ r, get id (results s) = Some r ∧ success r = true) ∧
  (∀ id, id ∈ failedNodes meta →
         ∃ r, get id (results s) = Some r ∧ success r = false).

(** ** Graphs of the examples *)

Definition mkNode (a : SubagentType) (t : string) (d : option (list string))
    (o : string) : GraphNode :=
  {| agent := a; task := t; dependencies := d; model := None; output := o |}.

(** scan, and plan that depends on scan; the declared entry is scan. *)
Definition scanPlanGraph : Graph :=
  {| nodes := [("scan", mkNode explore "scan" None "s");
               ("plan", mkNode plan "plan" (Some ["scan"]) "p")];
     entry := Some "scan" |}.

(** x depends on y and y on x. *)
Definition cycleGraph (e : option string) : Graph :=
  {| nodes := [("x", mkNode explore "x" (Some ["y"]) "ox");
               ("y", mkNode explore "y" (Some ["x"]) "oy")];
     entry := e |}.

(** One node, and a declared entry that is not a node. *)
Definition ghostEntryGraph : Graph :=
  {| nodes := [("a", mkNode explore "a" None "oa")];
     entry := Some "ghost" |}.

(** B depends on A and C on B; the declared entry is C, from which the
    traversal reaches all three. *)
Definition chainGraph : Graph :=
  {| nodes := [("A", mkNode explore "first" None "a");
               ("B", mkNode plan "second" (Some ["A"]) "b");
               ("C", mkNode general_purpose "third" (Some ["B"]) "c")];
     entry := Some "C" |}.

(** One node without dependencies and no declared entry. *)
Definition singleGraph : Graph :=
  {| nodes := [("a", mkNode explore "scan" None "oa")]; entry := None |}.

(** A node with an explicit model and an exploration task. *)
Definition overriddenScan (m : ClaudeModel) : GraphNode :=
  {| agent := explore; task := "scan"; dependencies := None;
     model := Some m; output := "s" |}.

(** The node plan of [scanPlanGraph], and the context in which scan has
    completed with the output "tree". *)
Definition planNode : GraphNode := mkNode plan "plan" (Some ["scan"]) "p".

Definition contextAfterScan : ExecutionContext :=
  {| outputs := [("s", JStr "tree")];
     input := JNull;
     metadata := {| startTime := 0; completedNodes := ["scan"];
                    failedNodes := [] |} |}.

(** ** Collaborators and inputs of the examples *)

Definition quote : string := String (ascii_of_nat 34) EmptyString.

(** [JSON.stringify(v)] on the values of [JsValue] whose strings hold no
    character that JSON escapes.  The examples use it for the indented
    form too, which differs on non-empty arrays and objects only; they
    print none with it. *)
Fixpoint stringify (v : JsValue) : option string :=
  match v with
  | JUndefined => None
  | JNull | JNaN => Some "null"
  | JBool true => Some "true"
  | JBool false => Some "false"
  | JNum z => Some (pretty z)
  | JStr s => Some (quote ++ s ++ quote)
  | JArr items =>
      Some ("[" ++ join "," (map (λ x, default "null" (stringify x)) items)
            ++ "]")
  | JBuiltin name =>
      if decide (name = "__proto__") then Some "{}" else None
  | JObj props =>
      Some ("{" ++ join ","
                     (omap (λ '(k, x),
                              match stringify x with
                              | Some text =>
                                  Some (quote ++ k ++ quote ++ ":" ++ text)
                              | None => None
                              end) props)
            ++ "}")
  end.

Definition sample_stringify (v : JsValue) : Completion (option string) :=
  Normal (stringify v).

Definition agent_name (a : SubagentType) : string :=
  match a with
  | explore => "explore"
  | plan => "plan"
  | general_purpose => "general-purpose"
  end.

Definition model_name (m : ClaudeModel) : string :=
  match m with
  | haiku => "haiku"
  | sonnet => "sonnet"
  | opus => "opus"
  end.

(** The [invokeSubagent] of the source, a simulation that always returns;
    its delay of 100 ms is left out. *)
Definition simulated_invokeSubagent {World : Type} (a : SubagentType)
    (m : ClaudeModel) (prompt : string) (context : list (string * JsValue))
    (w : World) : Completion JsValue * World :=
  (Normal (JObj [("agent", JStr (agent_name a));
                 ("model", JStr (model_name m));
                 ("result", JStr ("Simulated output from " ++ agent_name a
                                  ++ "/" ++ model_name m));
                 ("contextUsed",
                  JNum (Z.of_nat (length (Object_keys context))))]), w).

(** The rounding of exact arithmetic. *)
Definition no_rounding : Qc → Qc := λ x, x.

(** A clock that advances by one at every reading. *)
Definition tick (w : nat) : Z * nat := (Z.of_nat w, S w).

(** A backend that returns [v] on every call. *)
Definition backend_returning (v : JsValue) :
  SubagentType → ClaudeModel → string → list (string * JsValue) →
  nat → Completion JsValue * nat :=
  λ _ _ _ _ w, (Normal v, w).

(** A backend that raises a fault for the agent [plan]. *)
Definition backend_failing_plan :
  SubagentType → ClaudeModel → string → list (string * JsValue) →
  nat → Completion JsValue * nat :=
  λ a _ _ _ w,
    match a with
    | plan => (Throw (Error "backend unavailable"), w)
    | _ => (Normal (JStr "ok"), w)
    end.

Definition sample_execute backend :=
  execute no_rounding sample_stringify sample_stringify tick backend.
Definition sample_run_graph backend :=
  run_graph no_rounding sample_stringify sample_stringify tick backend.

(** The loop variables at the end of the run of the chain in which B
    fails, and of the run of the single node on the simulated backend. *)
Definition chain_final_state : RunState :=
  Eval vm_compute in
    match (sample_run_graph backend_failing_plan chainGraph JNull 0%nat).1 with
    | Done (_, _, s) => s
    | _ => initial_state JNull 0
    end.

Definition simulated_final_state : RunState :=
  Eval vm_compute in
    match (sample_run_graph simulated_invokeSubagent singleGraph
             JNull 0%nat).1 with
    | Done (_, _, s) => s
    | _ => initial_state JNull 0
    end.

(** ** Further code, and the inputs of further examples *)

(** Three nodes: one without a [dependencies] field, one with an empty
    array, one that depends on the first; no entry. *)
Definition leavesGraph : Graph :=
  {| nodes := [("a", mkNode explore "first" None "oa");
               ("b", mkNode explore "second" (Some []) "ob");
               ("c", mkNode plan "third" (Some ["a"]) "oc")];
     entry := None |}.

(** A graph entered at a name that every object inherits. *)
Definition inheritedEntryGraph : Graph :=
  {| nodes := [("a", mkNode explore "scan" None "oa")];
     entry := Some "toString" |}.

(** [result.metrics.tokensUsed], 0 when absent. *)
Definition tokens_of (r : NodeResult) : nat :=
  default 0 (tokensUsed (metrics r)).

Definition sum_tokens (rs : list (string * NodeResult)) : nat :=
  sum_list_with (λ kv, tokens_of kv.2) rs.

(** The value under the output key of a completed node is the output of
    that node, unless a node completed later has the same output key. *)
Definition last_writer_wins (graph : Graph) (s : RunState) : Prop :=
  ∀ i id node r,
    completedNodes (metadata (context s)) !! i = Some id →
    get id (nodes graph) = Some node →
    get id (results s) = Some r →
    (∀ j id' node',
       i < j → completedNodes (metadata (context s)) !! j = Some id' →
       get id' (nodes graph) = Some node' → output node' ≠ output node) →
    get (output node) (outputs (context s)) = Some (node_output r).

(** Every key of the outputs is the output key of a completed node. *)
Definition outputs_of_completed (graph : Graph) (s : RunState) : Prop :=
  ∀ k, k ∈ Object_keys (outputs (context s)) →
       ∃ id node, id ∈ completedNodes (metadata (context s)) ∧
                  get id (nodes graph) = Some node ∧ output node = k.


(** The loop variables at the end of the run of the chain on the
    simulated backend. *)
Definition chain_simulated_state : RunState :=
  Eval vm_compute in
    match (sample_run_graph simulated_invokeSubagent chainGraph
             JNull 0%nat).1 with
    | Done (_, _, s) => s
    | _ => initial_state JNull 0
    end.


(** The graph of [example-repo-summary.ts], with its first node apart, and
    the input of [runExample]. *)
Definition scanStructureNode : GraphNode :=
  {| agent := explore;
     task := "Scan the repository structure. Count files, identify languages, find key files (README, package.json, etc.). Return a structured summary of what you find.";
     dependencies := None;
     model := None;
     output := "structure_data" |}.

Definition repoSummaryGraph : Graph :=
  {| nodes :=
       [("scan_structure", scanStructureNode);
        ("analyze_architecture",
         {| agent := plan;
            task := "Based on the repository structure, analyze the architecture. Identify: 1) Framework/technology stack, 2) Project type (library/app/tool), 3) Key dependencies, 4) Architecture patterns used. Provide detailed analysis.";
            dependencies := Some ["scan_structure"];
            model := Some sonnet;
            output := "architecture_analysis" |});
        ("generate_summary",
         {| agent := general_purpose;
            task := "Create a concise markdown summary of the repository. Include: 1) Overview, 2) Tech stack, 3) Architecture highlights, 4) Key files/directories. Make it useful for a developer encountering this repo for the first time.";
            dependencies := Some ["scan_structure"; "analyze_architecture"];
            model := None;
            output := "final_summary" |})];
     entry := Some "scan_structure" |}.

Definition exampleInput : JsValue :=
  JObj [("repositoryPath", JStr "/path/to/repository");
        ("repositoryUrl", JStr "https://github.com/example/repo");
        ("analysisDepth", JStr "standard")].

(** ** model-router.ts: compareCost *)

(** [compareCost]'s result. [None] as [savingsPercent] is the quotient by
    zero, which is NaN or an infinity. *)
Record CostComparison := {
  model1Cost : Qc;
  model2Cost : Qc;
  savings : Qc;
  savingsPercent : option Qc
}.

(** [Math.abs] and [Math.max] on numbers. *)
Definition Math_abs (x : Qc) : Qc := Qcabs x.

Definition Math_max (x y : Qc) : Qc := if Qclt_le_dec x y then y else x.

Section CompareCost.
Variable fl : Qc → Qc.

(** [x / y], rounded; [None] when [y] is zero. *)
Definition divide (x y : Qc) : option Qc :=
  if decide (y = 0%Qc) then None else Some (fl (x / y)%Qc).

Definition compareCost (model1 model2 : ClaudeModel)
    (inputTokens outputTokens : Qc) : CostComparison :=
  let cost1 := estimateCost fl model1 inputTokens outputTokens in
  let cost2 := estimateCost fl model2 inputTokens outputTokens in
  {| model1Cost := cost1;
     model2Cost := cost2;
     savings := Math_abs (fl (cost1 - cost2)%Qc);
     savingsPercent :=
       match divide (Math_abs (fl (cost1 - cost2)%Qc)) (Math_max cost1 cost2)
       with
       | Some q => Some (fl (q * Q2Qc 100)%Qc)
       | None => None
       end |}.
End CompareCost.

(** The routing decision that [executeNode] asks for. *)
Definition node_routing (fl : Qc → Qc) (node : GraphNode)
  : ModelRoutingDecision :=
  selectModel fl node
    {| fileCount := None;
       complexity := Some (estimateComplexity (task node)) |}.

(** A task that mentions a deep analysis and no keyword. *)
Definition deepAnalysisNode : GraphNode :=
  {| agent := explore; task := "Deep analysis of the logs";
     dependencies := None; model := None; output := "report" |}.

(** * Properties *)

(** ** Dictionaries *)

Section DictFacts.
Context {V : Type}.
Implicit Types (obj : list (string * V)) (k : string).

Lemma get_Some_key k obj v : get k obj = Some v → k ∈ Object_keys obj.
Proof.
  unfold Object_keys. induction obj as [|[k' v'] obj IH]; simpl; [done|].
  case_decide; subst; set_solver.
Qed.

Lemma get_None_key k obj : get k obj = None ↔ k ∉ Object_keys obj.
Proof.
  unfold Object_keys. induction obj as [|[k' v'] obj IH]; simpl.
  - set_solver.
  - case_decide; subst; [set_solver|]. rewrite IH. set_solver.
Qed.

Lemma key_get_is_Some k obj : k ∈ Object_keys obj → is_Some (get k obj).
Proof.
  intros Hk. destruct (get k obj) eqn:E; [eauto|].
  by apply get_None_key in E.
Qed.

Lemma get_set_eq k v obj : get k (set k v obj) = Some v.
Proof.
  induction obj as [|[k' v'] obj IH]; simpl.
  - by rewrite decide_True.
  - case_decide; simpl; [by rewrite decide_True|by rewrite decide_False].
Qed.

Lemma get_set_ne k k' v obj : k ≠ k' → get k' (set k v obj) = get k' obj.
Proof.
  intros Hne. induction obj as [|[k0 v0] obj IH]; simpl.
  - by rewrite decide_False.
  - case_decide; simpl; subst.
    + by rewrite !decide_False.
    + case_decide; [done|apply IH].
Qed.

Lemma read_Own k obj v : read k obj = Own v ↔ get k obj = Some v.
Proof.
  unfold read. destruct (get k obj); [|case_decide]; naive_solver.
Qed.

Lemma read_Inherited k obj :
  read k obj = Inherited ↔ get k obj = None ∧ k ∈ Object_prototype_names.
Proof.
  unfold read. destruct (get k obj); [|case_decide]; naive_solver.
Qed.

Lemma read_Missing k obj :
  read k obj = Missing ↔ get k obj = None ∧ k ∉ Object_prototype_names.
Proof.
  unfold read. destruct (get k obj); [|case_decide]; naive_solver.
Qed.

(** A write under a fresh key appends the binding. *)
Lemma set_fresh k v obj :
  k ∉ Object_keys obj → set k v obj = (obj ++ [(k, v)])%list.
Proof.
  unfold Object_keys. induction obj as [|[k' v'] obj IH]; simpl; [done|].
  intros Hk. case_decide; [set_solver|]. f_equal. apply IH. set_solver.
Qed.
End DictFacts.

(** ** The traversal *)

Lemma read_found g x : read x (nodes g) ≠ Missing ↔ found g x.
Proof.
  unfold found, read. destruct (get x (nodes g)) as [v|].
  - split; [by eauto|done].
  - case_decide; split; try done.
    + by right.
    + by intros [[? ?]|?].
Qed.

Lemma read_Own_found g x node : read x (nodes g) = Own node → found g x.
Proof. intros H. apply read_found. congruence. Qed.

Lemma read_Inherited_found g x : read x (nodes g) = Inherited → found g x.
Proof. intros H. apply read_found. congruence. Qed.

Lemma read_Missing_found g x : read x (nodes g) = Missing ↔ ¬ found g x.
Proof.
  rewrite <- read_found. destruct (read x (nodes g)); naive_solver.
Qed.

(** A member of [Object.prototype] read as a node declares nothing. *)
Lemma read_Inherited_no_dep g x d :
  read x (nodes g) = Inherited → ¬ dep g x d.
Proof.
  intros [Hnone _]%read_Inherited (node & Hget & _). congruence.
Qed.

Section SortFacts.
Variable g : Graph.
Implicit Types (st : SortState) (n : string) (fuel : nat).

(** A completed call only adds to the visited set. *)
Lemma visit_dependencies_visited_mono
    (visit' : string → SortState → Outcome SortState) n :
  (∀ d st st', visit' d st = Done st' → visited st ⊆ visited st') →
  ∀ deps st st',
    visit_dependencies g visit' n deps st = Done st' →
    visited st ⊆ visited st'.
Proof.
  intros Hv. induction deps as [|d deps IH]; intros st st' H; simpl in H.
  - by inversion H.
  - destruct (read d (nodes g)); [| |done];
      (destruct (visit' d st) as [st1| |] eqn:E; [|done..]);
      apply Hv in E; apply IH in H; set_solver.
Qed.

Lemma visit_visited_mono fuel : ∀ n st st',
  visit g fuel n st = Done st' → visited st ⊆ visited st'.
Proof.
  induction fuel as [|fuel IH]; intros n st st' H; simpl in H; [done|].
  case_decide; [by inversion H|].
  destruct (read n (nodes g)) as [node| |]; [| |done].
  - destruct (dependencies node) as [deps|].
    + destruct (visit_dependencies _ _ _ _ _) as [st2| |] eqn:E; [|done..].
      inversion H; subst; simpl.
      apply visit_dependencies_visited_mono in E; [|done]. set_solver.
    + inversion H; subst; simpl. set_solver.
  - inversion H; subst; simpl. set_solver.
Qed.

(** Every call that goes on to the dependencies of its node marks a key of
    the node map that was not marked before, so these calls nest no deeper
    than the number of unmarked keys; a call on a member of
    [Object.prototype] calls nothing. *)
Lemma visit_enough_fuel fuel : ∀ n st,
  size (keys g ∖ visited st) < fuel → visit g fuel n st ≠ OutOfFuel.
Proof.
  induction fuel as [|fuel IH]; intros n st Hsize; [lia|]. simpl.
  case_decide as Hn; [done|].
  destruct (read n (nodes g)) as [node| |] eqn:Hread; [|done..].
  apply read_Own in Hread as Hget.
  assert (Hlt : size (keys g ∖ ({[n]} ∪ visited st)) < fuel).
  { apply get_Some_key in Hget.
    assert (keys g ∖ ({[n]} ∪ visited st) ⊂ keys g ∖ visited st) as Hs.
    { apply strict_spec_alt. split; [set_solver|].
      intros Heq. assert (n ∈ keys g ∖ visited st) as Hin.
      { unfold keys. set_solver. }
      rewrite <- Heq in Hin. set_solver. }
    apply subset_size in Hs. lia. }
  destruct (dependencies node) as [deps|]; [|done].
  set (st1 := {| visited := {[n]} ∪ visited st; order := order st |}).
  assert (visit_dependencies g (visit g fuel) n deps st1 ≠ OutOfFuel) as Hd.
  { assert (size (keys g ∖ visited st1) < fuel) as Hst1 by done.
    clearbody st1. clear -IH Hst1.
    revert st1 Hst1.
    induction deps as [|d deps IHd]; intros st1 Hst1; simpl; [done|].
    destruct (read d (nodes g)); [| |done];
      (destruct (visit g fuel d st1) as [st2| |] eqn:E;
         [|done|by apply IH in E]);
      apply IHd; apply visit_visited_mono in E;
      (assert (keys g ∖ visited st2 ⊆ keys g ∖ visited st1) as Hs
         by set_solver);
      apply subseteq_size in Hs; lia. }
  destruct (visit_dependencies _ _ _ _ _); done.
Qed.

(** Marking [n] on entry to [visit] and appending it on exit keep the
    invariant. *)
Lemma Inv_enter stk n st :
  Inv g stk st → n ∉ visited st → found g n →
  Inv g (n :: stk) {| visited := {[n]} ∪ visited st; order := order st |}.
Proof.
  intros [Hv Hn Hd Hpr Hp Hb] Hfresh Hsome. split; simpl; try done.
  - intros x. rewrite elem_of_union, elem_of_singleton, Hv, elem_of_cons.
    tauto.
  - intros x Hx. rewrite elem_of_cons. intros [->|Hs].
    + apply Hfresh, Hv. tauto.
    + by apply (Hd x).
  - intros x [->%elem_of_singleton|Hx]%elem_of_union; [done|by apply Hpr].
  - intros m d Hm Hmd. destruct (Hp m d Hm Hmd). split; [done|set_solver].
Qed.

Lemma Inv_leave stk n st st2 :
  Inv g stk st → n ∉ visited st →
  (∀ s, s ∈ stk → tc (dep g) s n) →
  Inv g (n :: stk) st2 →
  (∀ d, dep g n d → found g d ∧ d ∈ visited st2) →
  Inv g stk {| visited := visited st2; order := (order st2 ++ [n])%list |}.
Proof.
  intros Hst Hfresh Hstk [Hv Hn Hd Hpr Hp Hb] Hdeps.
  assert (n ∉ stk) as Hnstk.
  { intros Hin. apply Hfresh. apply (inv_visited _ _ _ Hst). tauto. }
  split; simpl.
  - intros x. rewrite Hv, elem_of_app, elem_of_cons, list_elem_of_singleton.
    tauto.
  - apply NoDup_app. split_and!; [done| |apply NoDup_singleton].
    intros x Hx ->%list_elem_of_singleton. apply (Hd n Hx). left.
  - intros x [Hx| ->%list_elem_of_singleton]%elem_of_app; [|done].
    intros Hs. apply (Hd x Hx). by right.
  - done.
  - intros m d [Hm| ->%list_elem_of_singleton]%elem_of_app Hmd.
    + by apply (Hp m).
    + by apply Hdeps.
  - intros i m d Hi Hmd.
    apply lookup_app_Some in Hi as [Hi|[Hlen Hi]].
    + destruct (Hb i m d Hi Hmd) as [(j & Hj & Hjd)|Htc]; [|by right].
      left. exists j. split; [done|]. by apply lookup_app_l_Some.
    + apply list_lookup_singleton_Some in Hi as [Hi ->].
      assert (d ∈ visited st2) as Hdv by by apply Hdeps.
      apply Hv in Hdv as [Hdo|Hds].
      * left. apply list_elem_of_lookup in Hdo as [j Hj].
        exists j. split; [|by apply lookup_app_l_Some].
        apply lookup_lt_Some in Hj. lia.
      * right. apply elem_of_cons in Hds as [->|Hds].
        -- by apply tc_once.
        -- by apply Hstk.
Qed.

Lemma grows_refl st : grows g [] st st.
Proof.
  split_and!; [done|set_solver|]. exists []. split; [by rewrite app_nil_r|].
  set_solver.
Qed.

Lemma visit_dependencies_Inv
    (visit' : string → SortState → Outcome SortState) n stk :
  (∀ d st st' stk',
     visit' d st = Done st' → Inv g stk' st →
     (∀ s, s ∈ stk' → tc (dep g) s d) →
     Inv g stk' st' ∧ grows g [d] st st') →
  ∀ deps st st',
    visit_dependencies g visit' n deps st = Done st' →
    Inv g (n :: stk) st →
    (∀ s, s ∈ stk → tc (dep g) s n) →
    (∀ d, d ∈ deps → dep g n d) →
    Inv g (n :: stk) st' ∧ grows g deps st st'.
Proof.
  intros Hvisit. induction deps as [|d deps IH];
    intros st st' Hrun Hinv Hstk Hdep; simpl in Hrun.
  - inversion Hrun; subst. split; [done|apply grows_refl].
  - assert (found g d ∧
            match visit' d st with
            | Done st1 => visit_dependencies g visit' n deps st1
            | other => other
            end = Done st') as [Hfound Hrun'].
    { destruct (read d (nodes g)) eqn:Hread; [| |done].
      - split; [by eapply read_Own_found|done].
      - split; [by eapply read_Inherited_found|done]. }
    clear Hrun.
    destruct (visit' d st) as [st1| |] eqn:E; [|done..].
    apply (Hvisit _ _ _ (n :: stk)) in E as [Hinv1 Hg1]; [|done|].
    2:{ intros s [->|Hs]%elem_of_cons.
        - apply tc_once, Hdep. left.
        - eapply tc_r; [by apply Hstk|]. apply Hdep. left. }
    destruct Hg1 as (Hsub1 & Hin1 & new1 & Ho1 & Hr1).
    apply IH in Hrun' as [Hinv' (Hsub2 & Hin2 & new2 & Ho2 & Hr2)];
      [|done|done|]; last (intros; apply Hdep; by right).
    split; [done|]. split_and!.
    + set_solver.
    + intros d' [->|Hd']%elem_of_cons; [|by apply Hin2].
      split; [done|]. apply Hsub2, Hin1. left.
    + exists (new1 ++ new2)%list. split; [by rewrite Ho2, Ho1, app_assoc|].
      intros m [Hm|Hm]%elem_of_app.
      * destruct (Hr1 m Hm) as (d' & ->%list_elem_of_singleton & Hr).
        exists d. split; [left|done].
      * destruct (Hr2 m Hm) as (d' & Hd' & Hr).
        exists d'. split; [by right|done].
Qed.

(** A completed call of [visit] keeps the invariant, marks its node, and
    appends only nodes reachable from it. *)
Lemma visit_Inv fuel : ∀ n st st' stk,
  visit g fuel n st = Done st' → Inv g stk st →
  (∀ s, s ∈ stk → tc (dep g) s n) →
  Inv g stk st' ∧ grows g [n] st st'.
Proof.
  induction fuel as [|fuel IH]; intros n st st' stk Hrun Hinv Hstk;
    simpl in Hrun; [done|].
  case_decide as Hn.
  { inversion Hrun; subst. split; [done|].
    split_and!; [done| |].
    - intros d ->%list_elem_of_singleton.
      split; [by apply (inv_present _ _ _ Hinv)|done].
    - exists []. rewrite app_nil_r. set_solver. }
  destruct (read n (nodes g)) as [node| |] eqn:Hread; [| |done].
  - apply read_Own in Hread as Hget.
    pose proof (Inv_enter _ _ _ Hinv Hn (read_Own_found _ _ _ Hread))
      as Hinv1.
    set (st1 := {| visited := {[n]} ∪ visited st; order := order st |}) in *.
    assert (∃ st2, Inv g (n :: stk) st2 ∧ grows g (deps_of node) st1 st2 ∧
              st' = {| visited := visited st2;
                       order := (order st2 ++ [n])%list |})
      as (st2 & Hinv2 & (Hsub & Hin & new & Ho & Hr) & ->).
    { unfold deps_of.
      destruct (dependencies node) as [deps|] eqn:Hdeps; simpl.
      - destruct (visit_dependencies _ _ _ _ _) as [st2| |] eqn:E;
          [|done..].
        inversion Hrun; subst. exists st2.
        eapply visit_dependencies_Inv in E as [? ?]; [done|done|done|done|].
        intros d Hd. exists node. split; [done|]. unfold deps_of.
        by rewrite Hdeps.
      - inversion Hrun; subst. exists st1. split; [done|].
        split; [apply grows_refl|done]. }
    split.
    + eapply Inv_leave; eauto.
      intros d (node' & Hget' & Hd). simplify_eq. by apply Hin.
    + split_and!; simpl.
      * subst st1; simpl in *. set_solver.
      * intros d ->%list_elem_of_singleton.
        split; [by eapply read_Own_found|].
        apply Hsub. subst st1; simpl. set_solver.
      * exists (new ++ [n])%list. rewrite Ho. subst st1; simpl.
        split; [by rewrite app_assoc|].
        intros m [Hm| ->%list_elem_of_singleton]%elem_of_app.
        -- destruct (Hr m Hm) as (d & Hd & Hdm). exists n. split; [left|].
           eapply rtc_l; [|done]. by exists node.
        -- exists n. split; [left|done].
  - pose proof (Inv_enter _ _ _ Hinv Hn (read_Inherited_found _ _ Hread))
      as Hinv1.
    inversion Hrun; subst; simpl. split.
    + pose proof (Inv_leave stk n st _ Hinv Hn Hstk Hinv1) as Hleave.
      simpl in Hleave. apply Hleave.
      intros d Hd. by apply read_Inherited_no_dep in Hd.
    + split_and!; simpl.
      * set_solver.
      * intros d ->%list_elem_of_singleton.
        split; [by eapply read_Inherited_found|set_solver].
      * exists [n]. split; [done|].
        intros m ->%list_elem_of_singleton. exists n. split; [left|done].
Qed.

Lemma visit_entries_Inv fuel : ∀ entries st st',
  visit_entries g fuel entries st = Done st' → Inv g [] st →
  Inv g [] st' ∧ grows g entries st st'.
Proof.
  induction entries as [|e entries IH]; intros st st' Hrun Hinv;
    simpl in Hrun.
  - inversion Hrun; subst. split; [done|apply grows_refl].
  - destruct (visit g fuel e st) as [st1| |] eqn:E; [|done..].
    apply (visit_Inv _ _ _ _ []) in E
      as [Hinv1 (Hsub1 & Hin1 & new1 & Ho1 & Hr1)]; [|done|set_solver].
    apply IH in Hrun as [Hinv' (Hsub2 & Hin2 & new2 & Ho2 & Hr2)]; [|done].
    split; [done|]. split_and!.
    + set_solver.
    + intros d [->|Hd]%elem_of_cons; [|by apply Hin2].
      destruct (Hin1 e) as [? ?]; [left|]. split; [done|by apply Hsub2].
    + exists (new1 ++ new2)%list. split; [by rewrite Ho2, Ho1, app_assoc|].
      intros m [Hm|Hm]%elem_of_app.
      * destruct (Hr1 m Hm) as (d' & ->%list_elem_of_singleton & Hr).
        exists e. split; [left|done].
      * destruct (Hr2 m Hm) as (d' & Hd' & Hr).
        exists d'. split; [by right|done].
Qed.

Lemma Inv_initial : Inv g [] {| visited := ∅; order := [] |}.
Proof.
  split; simpl; try set_solver. constructor.
Qed.

(** Once no call is in progress, the visited nodes are closed under the
    dependency relation. *)
Lemma Inv_closed st n m :
  Inv g [] st → n ∈ visited st → rtc (dep g) n m → m ∈ visited st.
Proof.
  intros Hinv Hn Hreach. induction Hreach as [|a b c Hab _ IH]; [done|].
  apply IH. apply (inv_visited _ _ _ Hinv) in Hn as [Hn|Hn]; [|set_solver].
  by apply (inv_deps _ _ _ Hinv a b).
Qed.

(** An exception of [visit] names an id that [graph.nodes] does not have,
    own or inherited: the node visited, or a dependency of a node reachable
    from it. *)
Lemma visit_Thrown fuel : ∀ n st e,
  visit g fuel n st = Thrown e → missing_from g n e.
Proof.
  induction fuel as [|fuel IH]; intros n st e Hrun; simpl in Hrun; [done|].
  case_decide; [done|].
  destruct (read n (nodes g)) as [node| |] eqn:Hread; [|done|].
  2:{ left. apply read_Missing_found in Hread. split; [done|congruence]. }
  apply read_Own in Hread as Hget.
  destruct (dependencies node) as [deps|] eqn:Hdeps; [|done].
  destruct (visit_dependencies _ _ _ _ _) as [|e'|] eqn:E; [done| |done].
  inversion Hrun; subst e'. clear Hrun. right.
  assert (∀ d, d ∈ deps → dep g n d) as Hdep.
  { intros d Hd. exists node. split; [done|]. unfold deps_of.
    by rewrite Hdeps. }
  clear Hdeps. revert E Hdep.
  generalize ({| visited := {[n]} ∪ visited st; order := order st |}).
  induction deps as [|d deps IHd]; intros st1 E Hdep; simpl in E; [done|].
  destruct (read d (nodes g)) as [dn| |] eqn:Hd.
  3:{ inversion E; subst. exists n, d.
      apply read_Missing_found in Hd. split_and!; [done| |done..].
      apply Hdep. left. }
  all: destruct (visit g fuel d st1) as [st2|e'|] eqn:E1; [| |done];
    [eapply IHd; [done|]; intros; apply Hdep; by right|];
    inversion E; subst e';
    apply IH in E1 as [[Hnone _]|Hm];
    [exfalso; apply Hnone; apply read_found; congruence|];
    destruct Hm as (m & d' & Hr & Hmd & Hnone & ->);
    exists m, d'; split_and!; [|done..];
    (eapply rtc_l; [|done]); apply Hdep; left.
Qed.

Lemma visit_entries_Thrown fuel : ∀ entries st e,
  visit_entries g fuel entries st = Thrown e →
  ∃ n, n ∈ entries ∧ missing_from g n e.
Proof.
  induction entries as [|n entries IH]; intros st e Hrun; simpl in Hrun;
    [done|].
  destruct (visit g fuel n st) as [st1|e'|] eqn:E; [| |done].
  - apply IH in Hrun as (n' & Hn' & Hm). exists n'. split; [by right|done].
  - inversion Hrun; subst. exists n. split; [left|by eapply visit_Thrown].
Qed.

Lemma visit_entries_enough_fuel fuel : ∀ entries st,
  size (keys g ∖ visited st) < fuel →
  visit_entries g fuel entries st ≠ OutOfFuel.
Proof.
  induction entries as [|n entries IH]; intros st Hsize; simpl; [done|].
  destruct (visit g fuel n st) as [st1| |] eqn:E;
    [|done|by apply visit_enough_fuel in E].
  apply IH. apply visit_visited_mono in E.
  assert (keys g ∖ visited st1 ⊆ keys g ∖ visited st) as Hs by set_solver.
  apply subseteq_size in Hs. lia.
Qed.

Lemma size_keys : (size (keys g) ≤ length (nodes g))%nat.
Proof.
  unfold keys, Object_keys. rewrite <- (length_fmap fst (nodes g)).
  induction ((nodes g).*1) as [|k l IH].
  - rewrite list_to_set_nil, size_empty. done.
  - rewrite list_to_set_cons, size_union_alt, size_singleton.
    assert (list_to_set l ∖ {[k]} ⊆@{gset string} list_to_set l) as Hs
      by set_solver.
    apply subseteq_size in Hs. simpl. lia.
Qed.

(** The recursion of [visit] never exhausts the bound it starts from. *)
Lemma topologicalSort_terminates : topologicalSort g ≠ OutOfFuel.
Proof.
  unfold topologicalSort.
  destruct (visit_entries _ _ _ _) eqn:E; [done..|].
  apply visit_entries_enough_fuel in E; [done|]. simpl.
  pose proof size_keys.
  assert (keys g ∖ ∅ ⊆ keys g) as Hs by set_solver.
  apply subseteq_size in Hs. lia.
Qed.

(** What a returned order satisfies, on every graph. *)
Lemma topologicalSort_Done r :
  topologicalSort g = Done r →
  ∃ st, Inv g [] st ∧ sorted r = order st ∧
        warned_unreachable r =
          filter (λ n, n ∉ visited st) (Object_keys (nodes g)) ∧
        (∀ x, x ∈ sorted r ↔
              ∃ e, e ∈ entryNodes g ∧ rtc (dep g) e x).
Proof.
  unfold topologicalSort.
  destruct (visit_entries _ _ _ _) as [st| |] eqn:E; [|done..].
  intros Hr; inversion Hr; subst; simpl. exists st.
  apply visit_entries_Inv in E as [Hinv (Hsub & Hin & new & Ho & Hr')];
    [|apply Inv_initial].
  split_and!; [done..|]. simpl in Ho. intros x. split.
  - rewrite Ho. intros Hx. by apply Hr'.
  - intros (e & He & Hreach).
    assert (x ∈ visited st) as Hx.
    { eapply Inv_closed; [done| |done]. by apply Hin. }
    apply (inv_visited _ _ _ Hinv) in Hx. set_solver.
Qed.
End SortFacts.

(** The inferred entry points are keys of the node map. *)
Lemma default_entries_present g e :
  e ∈ default_entries g → is_Some (get e (nodes g)).
Proof.
  unfold default_entries. intros [_ He]%list_elem_of_filter.
  by apply key_get_is_Some.
Qed.

(** A graph whose dependencies all go down a rank is acyclic. *)
Lemma acyclic_by_rank g (rank : string → nat) :
  (∀ a b, dep g a b → rank b < rank a) → acyclic g.
Proof.
  intros Hrank.
  assert (∀ a b, tc (dep g) a b → rank b < rank a) as Htc.
  { intros a b H. induction H as [a b H|a b c H _ IH].
    - by apply Hrank.
    - apply Hrank in H. lia. }
  intros x Hx. apply Htc in Hx. lia.
Qed.

(** Case analysis on an edge [H : dep g a b] of a concrete graph. *)
Ltac dep_cases H :=
  destruct H as (?node & H & ?Hin); simpl in H;
  repeat (case_decide; simplify_eq); simplify_eq;
  unfold deps_of in *; simpl in *;
  repeat match goal with
    | Hin : _ ∈ [] |- _ => by apply not_elem_of_nil in Hin
    | Hin : _ ∈ _ :: _ |- _ =>
        apply elem_of_cons in Hin as [?|Hin]; simplify_eq
    end.

Lemma chainGraph_acyclic : acyclic chainGraph.
Proof.
  apply (acyclic_by_rank _
    (λ x, if decide (x = "C") then 2 else if decide (x = "B") then 1 else 0)).
  intros a b H. dep_cases H; vm_compute; lia.
Qed.

Lemma chainGraph_dependencies_present : dependencies_present chainGraph.
Proof. intros a b H. dep_cases H; by eexists. Qed.

Lemma chainGraph_entries_present : entries_present chainGraph.
Proof.
  intros e He. cbv [entryNodes chainGraph entry] in He.
  rewrite decide_False in He by done.
  apply list_elem_of_singleton in He as ->. by eexists.
Qed.

Lemma chainGraph_ordinary_keys : ordinary_keys chainGraph ["A"; "B"; "C"].
Proof.
  split; [set_solver|]. intros id node Hid Hget.
  apply elem_of_cons in Hid as [->|Hid];
    [by vm_compute in Hget; simplify_eq|].
  apply elem_of_cons in Hid as [->|Hid];
    [by vm_compute in Hget; simplify_eq|].
  apply list_elem_of_singleton in Hid as ->.
  by vm_compute in Hget; simplify_eq.
Qed.

Lemma ghostEntryGraph_acyclic : acyclic ghostEntryGraph.
Proof.
  apply (acyclic_by_rank _ (λ _, 0)). intros a b H. dep_cases H.
Qed.

Lemma ghostEntryGraph_dependencies_present :
  dependencies_present ghostEntryGraph.
Proof. intros a b H. dep_cases H. Qed.

(** A returned order has no duplicates and holds only ids that
    [graph.nodes] has, own or inherited, on every graph. *)
Lemma topologicalSort_sorted_NoDup g r :
  topologicalSort g = Done r → NoDup (sorted r).
Proof.
  intros (st & Hinv & -> & _)%topologicalSort_Done.
  apply (inv_nodup _ _ _ Hinv).
Qed.

Lemma topologicalSort_sorted_found g r :
  topologicalSort g = Done r → ∀ id, id ∈ sorted r → found g id.
Proof.
  intros (st & Hinv & -> & _)%topologicalSort_Done id Hid.
  apply (inv_present _ _ _ Hinv), (inv_visited _ _ _ Hinv). by left.
Qed.

(** [topologicalSort] throws exactly when the traversal meets an id that
    [graph.nodes] does not have, own or inherited: an entry point, or a
    dependency of a node it reaches. *)
Lemma topologicalSort_Thrown_iff g :
  (∃ e, topologicalSort g = Thrown e) ↔
  ∃ n, n ∈ entryNodes g ∧
       (¬ found g n ∨
        ∃ m d, rtc (dep g) n m ∧ dep g m d ∧ ¬ found g d).
Proof.
  split.
  - intros [e He]. unfold topologicalSort in He.
    destruct (visit_entries _ _ _ _) as [|e'|] eqn:E; [done| |done].
    apply visit_entries_Thrown in E as (n & Hn & Hm). exists n.
    split; [done|]. destruct Hm as [[? _]|(m & d & ? & ? & ? & _)]; eauto 6.
  - intros (n & Hn & Hbad).
    destruct (topologicalSort g) as [r|e|] eqn:E; [|by eauto|].
    + exfalso. apply topologicalSort_Done in E as (st & Hinv & Ho & _ & Hin).
      assert (n ∈ visited st) as Hv.
      { apply (inv_visited _ _ _ Hinv). left. rewrite <- Ho. apply Hin.
        by exists n. }
      destruct Hbad as [Hnone|(m & d & Hr & Hmd & Hnone)].
      * by apply (inv_present _ _ _ Hinv) in Hv.
      * assert (m ∈ visited st) as Hm by by eapply Inv_closed.
        apply (inv_visited _ _ _ Hinv) in Hm as [Hm|Hm]; [|set_solver].
        by destruct (inv_deps _ _ _ Hinv m d Hm Hmd) as [? _].
    + by apply topologicalSort_terminates in E.
Qed.

(** Positions in a list without duplicates. *)
Lemma strictly_earlier_trans (l : list string) a b c :
  NoDup l → strictly_earlier l a b → strictly_earlier l b c →
  strictly_earlier l a c.
Proof.
  intros Hnd (i & j & Hji & Hj & Hi) (i' & j' & Hji' & Hj' & Hi').
  assert (j' = i) as -> by by eapply NoDup_lookup.
  exists i', j. split_and!; [lia|done..].
Qed.

Lemma strictly_earlier_irrefl (l : list string) a :
  NoDup l → ¬ strictly_earlier l a a.
Proof.
  intros Hnd (i & j & Hji & Hj & Hi).
  assert (j = i) by by eapply NoDup_lookup. lia.
Qed.

Lemma strictly_earlier_cases (l : list string) a b :
  NoDup l → a ∈ l → b ∈ l →
  strictly_earlier l b a ∨ ¬ strictly_earlier l b a.
Proof.
  intros Hnd [i Hi]%list_elem_of_lookup [j Hj]%list_elem_of_lookup.
  destruct (decide (j < i)) as [Hlt|Hge].
  - left. by exists i, j.
  - right. intros (i' & j' & Hlt & Hj' & Hi').
    assert (i' = i) by by eapply NoDup_lookup.
    assert (j' = j) by by eapply NoDup_lookup. lia.
Qed.

(** On a cycle that the traversal reaches, some node of the order does not
    have one of its dependencies earlier in the order. *)
Lemma cycle_breaks_order g r c :
  topologicalSort g = Done r →
  reachable_from_entry g c → tc (dep g) c c →
  ∃ m d, m ∈ sorted r ∧ dep g m d ∧ ¬ strictly_earlier (sorted r) d m.
Proof.
  intros Hsort Hreach Hcycle.
  pose proof (topologicalSort_sorted_NoDup _ _ Hsort) as Hnd.
  destruct (topologicalSort_Done _ _ Hsort) as (st & _ & _ & _ & Hin).
  assert (∀ a b, tc (dep g) a b → reachable_from_entry g a →
            (∃ m d, m ∈ sorted r ∧ dep g m d ∧
                    ¬ strictly_earlier (sorted r) d m) ∨
            strictly_earlier (sorted r) b a) as Hpath.
  { intros a b Hab. induction Hab as [a b Hab|a b c' Hab Hbc IH];
      intros Ha.
    - assert (reachable_from_entry g b) as Hb.
      { destruct Ha as (e & He & Hea). exists e. split; [done|].
        by eapply rtc_r. }
      destruct (strictly_earlier_cases (sorted r) a b) as [He|Hne];
        [done|by apply Hin|by apply Hin|by right|].
      left. exists a, b. split_and!; [by apply Hin|done|done].
    - assert (reachable_from_entry g b) as Hb.
      { destruct Ha as (e & He & Hea). exists e. split; [done|].
        by eapply rtc_r. }
      destruct (IH Hb) as [Hbad|Hcb]; [by left|].
      destruct (strictly_earlier_cases (sorted r) a b) as [He|Hne];
        [done|by apply Hin|by apply Hin| |].
      + right. by eapply strictly_earlier_trans.
      + left. exists a, b. split_and!; [by apply Hin|done|done]. }
  destruct (Hpath c c Hcycle Hreach) as [Hbad|Hcc]; [done|].
  by apply strictly_earlier_irrefl in Hcc.
Qed.

(** C1.  The claim asks for a failure on a cycle that an entry point
    reaches; the code keeps a visited set and no stack of the calls in
    progress, and so never notices one.  On the graph
    {x (deps [y]), y (deps [x])} entered at x, every dependency id is
    present, x reaches itself through y, and the call returns the order
    [y; x], in which y stands before its own dependency x.  On every graph
    on which the call returns, a cycle that an entry point reaches leaves
    some node of the order without its dependency earlier in the order. *)
Theorem topologicalSort_ignores_cycles :
  "x" ∈ entryNodes (cycleGraph (Some "x")) ∧
  tc (dep (cycleGraph (Some "x"))) "x" "x" ∧
  dependencies_present (cycleGraph (Some "x")) ∧
  topologicalSort (cycleGraph (Some "x"))
    = Done {| sorted := ["y"; "x"]; warned_unreachable := [] |} ∧
  dep (cycleGraph (Some "x")) "y" "x" ∧
  strictly_earlier ["y"; "x"] "y" "x" ∧
  (∀ g r c,
     topologicalSort g = Done r →
     reachable_from_entry g c → tc (dep g) c c →
     ∃ m d, m ∈ sorted r ∧ dep g m d ∧
            ¬ strictly_earlier (sorted r) d m).
Proof.
  split_and!.
  - vm_compute. left.
  - apply tc_l with "y"; [|apply tc_once]; eexists; split;
      try reflexivity; unfold deps_of; simpl; left.
  - intros a b H. dep_cases H; by eexists.
  - vm_compute. reflexivity.
  - eexists. split; [reflexivity|]. unfold deps_of; simpl. left.
  - exists 1, 0. split_and!; [lia|done..].
  - apply cycle_breaks_order.
Qed.

(** C3 says [scan; plan]; the code returns [scan] alone.  The traversal
    starts at the entry point and follows dependencies only, so [plan],
    which depends on [scan], is never visited and is reported as
    unreachable. *)
Theorem topologicalSort_scan_plan :
  topologicalSort scanPlanGraph
    = Done {| sorted := ["scan"]; warned_unreachable := ["plan"] |}.
Proof. vm_compute. reflexivity. Qed.

(** C4, with the precondition the code needs.  On an acyclic graph whose
    dependency ids are all keys of the node map and whose entry points are
    keys too, [topologicalSort] returns an order that has no duplicates,
    holds exactly the nodes reachable from an entry point along dependency
    edges, and lists every dependency of a node strictly before the node;
    the nodes it did not visit are only named in the warning. *)
Theorem topologicalSort_acyclic g :
  acyclic g → dependencies_present g → entries_present g →
  ∃ r, topologicalSort g = Done r ∧
       NoDup (sorted r) ∧
       (∀ x, x ∈ sorted r ↔ reachable_from_entry g x) ∧
       (∀ m d, m ∈ sorted r → dep g m d → strictly_earlier (sorted r) d m) ∧
       warned_unreachable r =
         filter (λ n, n ∉ sorted r) (Object_keys (nodes g)).
Proof.
  intros Hacyc Hdeps Hentries.
  destruct (topologicalSort g) as [r|e|] eqn:E.
  - exists r. split; [done|].
    apply topologicalSort_Done in E as (st & Hinv & Ho & Hw & Hin).
    split_and!.
    + rewrite Ho. apply (inv_nodup _ _ _ Hinv).
    + done.
    + intros m d [i Hi]%list_elem_of_lookup Hmd. rewrite Ho in Hi.
      destruct (inv_before _ _ _ Hinv i m d Hi Hmd) as [(j & Hj & Hjd)|Htc].
      * exists i, j. by rewrite Ho.
      * exfalso. apply (Hacyc m). by eapply tc_l.
    + rewrite Hw. apply list_filter_iff. intros x.
      rewrite (inv_visited _ _ _ Hinv), Ho. set_solver.
  - exfalso.
    assert (∃ e, topologicalSort g = Thrown e) as Hf by eauto.
    apply topologicalSort_Thrown_iff in Hf as (n & Hn & [Hnone|Hbad]).
    + apply Hnone. left. by apply Hentries.
    + destruct Hbad as (m & d & _ & Hmd & Hnone).
      apply Hnone. left. by apply Hdeps in Hmd.
  - by apply topologicalSort_terminates in E.
Qed.

(** The chain A ← B ← C, entered at C, meets the preconditions. *)
Lemma topologicalSort_acyclic_witness :
  ∃ r, topologicalSort chainGraph = Done r ∧
       NoDup (sorted r) ∧
       (∀ x, x ∈ sorted r ↔ reachable_from_entry chainGraph x) ∧
       (∀ m d, m ∈ sorted r → dep chainGraph m d →
               strictly_earlier (sorted r) d m) ∧
       warned_unreachable r =
         filter (λ n, n ∉ sorted r) (Object_keys (nodes chainGraph)).
Proof.
  apply (topologicalSort_acyclic chainGraph).
  - apply chainGraph_acyclic.
  - apply chainGraph_dependencies_present.
  - apply chainGraph_entries_present.
Defined.

(** C4, as stated, fails when the declared entry is not a node: the graph
    is acyclic, no dependency id is missing, and the call throws. *)
Lemma missing_entry_throws :
  acyclic ghostEntryGraph ∧
  dependencies_present ghostEntryGraph ∧
  topologicalSort ghostEntryGraph
    = Thrown (TypeError
        "Cannot read properties of undefined (reading 'dependencies')").
Proof.
  split_and!.
  - apply ghostEntryGraph_acyclic.
  - apply ghostEntryGraph_dependencies_present.
  - vm_compute. reflexivity.
Qed.

(** ** Dependency inputs *)

(** A search whose callback never answers [true] finds nothing. *)
Lemma find_from_never {A} (callback : A → nat → bool) (l : list A) :
  (∀ x i, callback x i = false) → ∀ i, find_from callback i l = None.
Proof.
  intros Hnever. induction l as [|x l IH]; intros i; simpl; [done|].
  by rewrite Hnever.
Qed.

(** On every node and every context the gathered inputs are empty. *)
Lemma prepareDependencyInputs_empty node ctx :
  prepareDependencyInputs node ctx = [].
Proof.
  unfold prepareDependencyInputs.
  destruct (dependencies node) as [deps|]; [|done].
  assert (∀ inputs, fold_left
    (λ inputs depId,
       match Array_find
               (λ (_ : JsValue) key,
                  strict_equals (JNum (Z.of_nat key)) (JStr depId))
               (Object_values (outputs ctx)) with
       | Some JUndefined | None => inputs
       | Some v => set depId v inputs
       end) deps inputs = inputs) as Hfold; [|apply Hfold].
  induction deps as [|d deps IH]; intros inputs; simpl; [done|].
  unfold Array_find at 2. rewrite find_from_never; [apply IH|done].
Qed.

(** C2 says that the input map holds, under the id of a dependency, the
    value stored under that dependency's output key.  The code looks the id
    up with [find((_, key) => key === depId)], where [key] is the index of
    the element and never equals a string, so nothing is ever found: after
    [scan] has written "tree" under its output key [s], the inputs gathered
    for [plan], which depends on [scan], are empty. *)
Theorem prepareDependencyInputs_misses_output :
  get (output (mkNode explore "scan" None "s")) (outputs contextAfterScan)
    = Some (JStr "tree") ∧
  prepareDependencyInputs planNode contextAfterScan = [].
Proof. split; [reflexivity|apply prepareDependencyInputs_empty]. Qed.

(** ** The loop of [execute] *)

Section OrchestratorFacts.
Variable fl : Qc → Qc.
Variable JSON_stringify : JsValue → Completion (option string).
Variable JSON_stringify_indented : JsValue → Completion (option string).
Context {World : Type}.
Variable Date_now : World → Z * World.
Variable invokeSubagent :
  SubagentType → ClaudeModel → string → list (string * JsValue) →
  World → Completion JsValue * World.

Abbreviation executeNode :=
  (executeNode fl JSON_stringify JSON_stringify_indented Date_now
               invokeSubagent).
Abbreviation attemptNode :=
  (attemptNode fl JSON_stringify JSON_stringify_indented Date_now
               invokeSubagent).
Abbreviation run_nodes :=
  (run_nodes fl JSON_stringify JSON_stringify_indented Date_now
             invokeSubagent).
Abbreviation run_graph :=
  (run_graph fl JSON_stringify JSON_stringify_indented Date_now
             invokeSubagent).
Abbreviation execute :=
  (execute fl JSON_stringify JSON_stringify_indented Date_now
           invokeSubagent).
Abbreviation compile_result := (compile_result Date_now).

Implicit Types (s : RunState) (w : World) (graph : Graph).

Abbreviation completed s := (completedNodes (metadata (context s))).
Abbreviation failed s := (failedNodes (metadata (context s))).

Lemma attemptNode_nodeId id node ctx t w r w' :
  attemptNode id node ctx t w = (Normal r, w') →
  nodeId r = id ∧ success r = true.
Proof.
  unfold attemptNode. intros H.
  repeat case_match; simplify_eq; done.
Qed.

(** The result of [executeNode] carries the id of its node. *)
Lemma executeNode_nodeId id node ctx w :
  nodeId (executeNode id node ctx w).1 = id.
Proof.
  unfold executeNode. destruct (Date_now w) as [t w1].
  destruct (attemptNode id node ctx t w1) as [[r|e] w2] eqn:E.
  - by apply attemptNode_nodeId in E as [? _].
  - by destruct (Date_now w2).
Qed.

(** A fault of the backend makes the node fail with its error text. *)
Lemma executeNode_backend_fault id node ctx w prompt e w' :
  buildPrompt JSON_stringify_indented node
    (prepareDependencyInputs node ctx) (input ctx) = Normal prompt →
  (let routing :=
     selectModel fl node
       {| fileCount := None;
          complexity := Some (estimateComplexity (task node)) |} in
   invokeSubagent (routed_agent routing) (routed_model routing) prompt
     (prepareDependencyInputs node ctx) (Date_now w).2) = (Throw e, w') →
  let r := (executeNode id node ctx w).1 in
  success r = false ∧ error r = Some (error_text e) ∧ node_output r = JNull.
Proof.
  simpl. intros Hprompt Hcall.
  unfold executeNode, attemptNode.
  destruct (Date_now w) as [t w1]. simpl in Hcall.
  rewrite Hprompt, Hcall. by destruct (Date_now w').
Qed.

(** The two shapes of a node result. *)
Lemma executeNode_cases id node ctx w :
  let r := (executeNode id node ctx w).1 in
  (success r = true ∧
   ∃ prompt out w' text,
     buildPrompt JSON_stringify_indented node
       (prepareDependencyInputs node ctx) (input ctx) = Normal prompt ∧
     invokeSubagent (routed_agent (node_routing fl node))
       (routed_model (node_routing fl node))
       prompt (prepareDependencyInputs node ctx) (Date_now w).2
       = (Normal out, w') ∧
     JSON_stringify out = Normal (Some text) ∧
     node_output r = out ∧ error r = None ∧
     tokensUsed (metrics r)
       = Some (ceil_div4 (String.length prompt)
               + ceil_div4 (String.length text))) ∨
  (success r = false ∧ node_output r = JNull ∧
   tokensUsed (metrics r) = None ∧ ∃ e, error r = Some (error_text e)).
Proof.
  unfold executeNode, attemptNode, estimateTokens.
  destruct (Date_now w) as [t w1]; simpl.
  destruct (buildPrompt _ _ _ _) as [prompt|e] eqn:Hp.
  2:{ destruct (Date_now w1). right. simpl. eauto. }
  destruct (invokeSubagent _ _ _ _ _) as [[out|e] w2] eqn:Hcall.
  2:{ destruct (Date_now w2). right. simpl. eauto. }
  destruct (Date_now w2) as [t2 w3].
  destruct (JSON_stringify out) as [[text|]|e] eqn:Hs.
  - left. simpl. split; [done|]. exists prompt, out, w2, text.
    by split_and!.
  - destruct (Date_now w3). right. simpl. split_and!; try done.
    by eexists (TypeError _).
  - destruct (Date_now w3). right. simpl. eauto.
Qed.


(** A member of [Object.prototype] read as a node fails. *)
Lemma executeNode_inherited_result id w :
  let r := (executeNode_inherited Date_now id w).1 in
  nodeId r = id ∧ success r = false ∧ node_output r = JNull ∧
  tokensUsed (metrics r) = None.
Proof.
  unfold executeNode_inherited. destruct (Date_now w) as [t w1].
  by destruct (Date_now w1).
Qed.

(** The three ways of one iteration of the loop: the id is not found and
    the loop throws; the node fails and the loop ends; the node succeeds
    and the loop goes on. *)
Lemma run_nodes_cons graph id s w :
  (¬ found graph id ∧
   ∀ rest, ∃ e, run_nodes graph (id :: rest) s w = (Throw e, w)) ∨
  (∃ r w', nodeId r = id ∧ success r = false ∧
           tokensUsed (metrics r) = None ∧
           (∀ node, get id (nodes graph) = Some node →
                    executeNode id node (context s) w = (r, w')) ∧
           ∀ rest, run_nodes graph (id :: rest) s w
                   = (Normal (record_failure r s), w')) ∨
  (∃ node r w', get id (nodes graph) = Some node ∧
                executeNode id node (context s) w = (r, w') ∧
                nodeId r = id ∧ success r = true ∧
                ∀ rest, run_nodes graph (id :: rest) s w
                        = run_nodes graph rest (record_success node r s) w').
Proof.
  simpl. destruct (read id (nodes graph)) as [node| |] eqn:Hread.
  - apply read_Own in Hread as Hget.
    pose proof (executeNode_nodeId id node (context s) w) as Hid.
    pose proof (executeNode_cases id node (context s) w) as Hcases.
    cbv zeta in Hcases.
    destruct (executeNode id node (context s) w) as [r w'] eqn:Hexec.
    simpl in Hid, Hcases. destruct (success r) eqn:Hr.
    + right. right. exists node, r, w'. by split_and!.
    + right. left. exists r, w'.
      destruct Hcases as [[? _]|(_ & _ & Hnone & _)]; [done|].
      split_and!; try done. intros node' ?. by simplify_eq.
  - apply read_Inherited in Hread as Hnone.
    pose proof (executeNode_inherited_result id w) as Hres.
    cbv zeta in Hres.
    destruct (executeNode_inherited Date_now id w) as [r w'].
    simpl in Hres. destruct Hres as (? & ? & _ & ?).
    right. left. exists r, w'. split_and!; try done.
    intros node Hget. destruct Hnone. congruence.
  - left. split; [by apply read_Missing_found|]. intros rest. by eexists.
Qed.

(** The loop returns when [graph.nodes] has every id of the order, own
    or inherited. *)
Lemma run_nodes_total graph : ∀ ids s w,
  (∀ id, id ∈ ids → found graph id) →
  ∃ s' w', run_nodes graph ids s w = (Normal s', w').
Proof.
  induction ids as [|id ids IH]; intros s w Hpresent; [by eexists _, _|].
  destruct (run_nodes_cons graph id s w)
    as [[Hno _]|[(r & w' & _ & _ & _ & _ & ->)
                |(node & r & w' & _ & _ & _ & _ & ->)]].
  - exfalso. apply Hno, Hpresent. left.
  - by eexists _, _.
  - apply IH. intros; apply Hpresent. by right.
Qed.

(** While no node fails, the loop goes on to the rest of the order. *)
Lemma run_nodes_continue graph rest : ∀ pre s w s1 w1,
  run_nodes graph pre s w = (Normal s1, w1) →
  failed s1 = failed s →
  completed s1 = (completed s ++ pre)%list ∧
  run_nodes graph (pre ++ rest) s w = run_nodes graph rest s1 w1.
Proof.
  induction pre as [|id pre IH]; intros s w s1 w1 Hrun Hfailed.
  - simpl in *. simplify_eq. by rewrite app_nil_r.
  - rewrite <- app_comm_cons.
    destruct (run_nodes_cons graph id s w)
      as [[_ Hthrow]|[(r & w' & Hid & _ & _ & _ & Hstep)
                     |(node & r & w' & _ & _ & Hid & _ & Hstep)]].
    + destruct (Hthrow pre) as [e He]. congruence.
    + rewrite Hstep in Hrun. simplify_eq. simpl in Hfailed.
      apply (f_equal length) in Hfailed. rewrite length_app in Hfailed.
      simpl in Hfailed. lia.
    + rewrite Hstep in *. apply IH in Hrun as [Hc Hr]; [|done].
      split; [|done]. rewrite Hc. simpl. by rewrite Hid, <- app_assoc.
Qed.

Lemma run_invariant_step_success order0 id node r s :
  failed s = [] → run_invariant order0 s →
  NoDup order0 → (completed s ++ [id])%list `prefix_of` order0 →
  nodeId r = id → success r = true →
  run_invariant order0 (record_success node r s).
Proof.
  intros Hf (Hlen & Hkeys & Hpre & Hok & Hbad) Hnd Hpre' Hid Hr.
  rewrite Hf, app_nil_r in *.
  assert (id ∉ completed s) as Hfresh.
  { destruct Hpre' as [k ->]. rewrite <- app_assoc in Hnd.
    apply NoDup_app in Hnd as (_ & Hdis & _). intros Hin.
    apply (Hdis _ Hin). left. }
  unfold run_invariant, record_success; simpl.
  rewrite Hf, app_nil_r, Hid.
  split_and!; [simpl; lia| |done| |by intros ? ?%not_elem_of_nil].
  - rewrite set_fresh by by rewrite Hkeys.
    unfold Object_keys in *. by rewrite fmap_app, Hkeys.
  - intros id' [Hin| ->%list_elem_of_singleton]%elem_of_app.
    + rewrite get_set_ne by set_solver. by apply Hok.
    + exists r. by rewrite get_set_eq.
Qed.

Lemma run_invariant_step_failure order0 id r s :
  failed s = [] → run_invariant order0 s →
  NoDup order0 → (completed s ++ [id])%list `prefix_of` order0 →
  nodeId r = id → success r = false →
  run_invariant order0 (record_failure r s).
Proof.
  intros Hf (Hlen & Hkeys & Hpre & Hok & Hbad) Hnd Hpre' Hid Hr.
  rewrite Hf, app_nil_r in *.
  assert (id ∉ completed s) as Hfresh.
  { destruct Hpre' as [k ->]. rewrite <- app_assoc in Hnd.
    apply NoDup_app in Hnd as (_ & Hdis & _). intros Hin.
    apply (Hdis _ Hin). left. }
  unfold run_invariant, record_failure; simpl.
  rewrite Hf, Hid. simpl. split_and!; [simpl; lia| |done| |].
  - rewrite set_fresh by by rewrite Hkeys.
    unfold Object_keys in *. by rewrite fmap_app, Hkeys.
  - intros id' Hin. rewrite get_set_ne by set_solver. by apply Hok.
  - intros id' ->%list_elem_of_singleton. exists r. by rewrite get_set_eq.
Qed.

(** The loop keeps [run_invariant], from a state in which no node has
    failed, over an order without duplicates. *)
Lemma run_nodes_invariant graph order0 : ∀ ids s w s' w',
  failed s = [] → run_invariant order0 s → NoDup order0 →
  (completed s ++ ids)%list `prefix_of` order0 →
  run_nodes graph ids s w = (Normal s', w') →
  run_invariant order0 s'.
Proof.
  induction ids as [|id ids IH]; intros s w s' w' Hf Hinv Hnd Hpre Hrun.
  - simpl in Hrun. by simplify_eq.
  - assert ((completed s ++ [id])%list `prefix_of` order0) as Hpre1.
    { etrans; [|done]. apply prefix_app, prefix_cons, prefix_nil. }
    destruct (run_nodes_cons graph id s w)
      as [[_ Hthrow]|[(r & w2 & Hid & Hr & _ & _ & Hstep)
                     |(node & r & w2 & _ & _ & Hid & Hr & Hstep)]].
    + destruct (Hthrow ids) as [e He]. congruence.
    + rewrite Hstep in Hrun. simplify_eq.
      by eapply run_invariant_step_failure.
    + rewrite Hstep in Hrun. eapply IH in Hrun; [done|done| |done|].
      * by eapply run_invariant_step_success.
      * simpl. by rewrite Hid, <- app_assoc.
Qed.

Lemma run_invariant_initial order0 input t0 :
  run_invariant order0 (initial_state input t0).
Proof.
  unfold run_invariant; simpl. split_and!; [lia|done|apply prefix_nil|..];
    intros id Hin; by apply not_elem_of_nil in Hin.
Qed.

Lemma run_graph_Done graph input w t0 order s w1 :
  run_graph graph input w = (Done (t0, order, s), w1) →
  ∃ sort, topologicalSort graph = Done sort ∧ order = sorted sort ∧
          t0 = (Date_now w).1 ∧
          run_nodes graph order (initial_state input t0) (Date_now w).2
            = (Normal s, w1).
Proof.
  unfold run_graph. destruct (Date_now w) as [t w0]; simpl.
  destruct (topologicalSort graph) as [sort| |]; [|done..].
  destruct (run_nodes _ _ _ _) as [[s'|e] w'] eqn:E;
    [|done].
  intros; simplify_eq. by exists sort.
Qed.

Lemma run_graph_total graph input w sort :
  topologicalSort graph = Done sort →
  ∃ s w1, run_graph graph input w
            = (Done ((Date_now w).1, sorted sort, s), w1).
Proof.
  intros Hsort. unfold run_graph.
  destruct (Date_now w) as [t w0]; simpl. rewrite Hsort.
  destruct (run_nodes_total graph (sorted sort) (initial_state input t) w0)
    as (s & w1 & ->); [|by eauto].
  by apply topologicalSort_sorted_found.
Qed.

Lemma extractFinalOutput_last graph ctx order lastId lastNode :
  last order = Some lastId → get lastId (nodes graph) = Some lastNode →
  extractFinalOutput graph ctx order
    = Normal (or_else (stored_output lastNode ctx) JNull).
Proof.
  unfold extractFinalOutput. intros -> Hget%read_Own. by rewrite Hget.
Qed.

(** Once the loop has ended, [execute] returns a result. *)
Lemma execute_Done graph input w t0 order s w1 :
  run_graph graph input w = (Done (t0, order, s), w1) →
  ∃ out,
    extractFinalOutput graph (context s) order = Normal out ∧
    execute graph input w
      = (Done {| graph_success := bool_decide (length (failed s) = 0);
                 graph_output := out;
                 nodeResults := results s;
                 graph_metrics :=
                   {| totalDuration := (Date_now w1).1 - t0;
                      totalTokens := tokens s;
                      nodeCount := length order;
                      successCount := length (completed s);
                      failureCount := length (failed s) |} |},
         (Date_now w1).2).
Proof.
  intros Hrun. unfold execute. rewrite Hrun.
  apply run_graph_Done in Hrun as (sort & Hsort & -> & _ & _).
  unfold compile_result. destruct (Date_now w1) as [t1 w2]; simpl.
  unfold extractFinalOutput.
  destruct (last (sorted sort)) as [lastId|] eqn:Hlast; [|by eexists].
  assert (found graph lastId) as Hfound.
  { eapply topologicalSort_sorted_found; [done|].
    by eapply last_Some_elem_of. }
  apply read_found in Hfound.
  destruct (read lastId (nodes graph)); [by eexists..|done].
Qed.

Lemma run_graph_invariant graph input w t0 order s w1 :
  run_graph graph input w = (Done (t0, order, s), w1) →
  NoDup order ∧ run_invariant order s.
Proof.
  intros (sort & Hsort & -> & _ & Hrun)%run_graph_Done.
  pose proof (topologicalSort_sorted_NoDup _ _ Hsort) as Hnd.
  split; [done|].
  eapply run_nodes_invariant in Hrun;
    [done|done|apply run_invariant_initial|done|done].
Qed.

(** The loop either completes the whole order or stops at its first
    failing node, in the state, and the world, of the order cut there. *)
Lemma run_nodes_cut graph : ∀ ids s0 w0 s w1,
  run_nodes graph ids s0 w0 = (Normal s, w1) →
  (failed s = failed s0 ∧ completed s = (completed s0 ++ ids)%list) ∨
  (∃ pre n post, ids = (pre ++ n :: post)%list ∧
     failed s = (failed s0 ++ [n])%list ∧
     completed s = (completed s0 ++ pre)%list ∧
     run_nodes graph (pre ++ [n]) s0 w0 = (Normal s, w1)).
Proof.
  induction ids as [|id ids IH]; intros s0 w0 s w1 Hrun.
  - simpl in Hrun. simplify_eq. left. by rewrite app_nil_r.
  - destruct (run_nodes_cons graph id s0 w0)
      as [[_ Hthrow]|[(r & w2 & Hid & Hr & _ & _ & Hstep)
                     |(node & r & w2 & _ & _ & Hid & Hr & Hstep)]].
    + destruct (Hthrow ids) as [e He]. congruence.
    + rewrite Hstep in Hrun. simplify_eq. right. exists [], (nodeId r), ids.
      split_and!; [done|done|by rewrite app_nil_r|]. apply Hstep.
    + rewrite Hstep in Hrun.
      apply IH in Hrun as [[Hf Hc]|(pre & n & post & -> & Hf & Hc & Hcut)].
      * left. split; [done|]. rewrite Hc. simpl.
        by rewrite Hid, <- app_assoc.
      * right. exists (id :: pre), n, post. split_and!; [done|done| |].
        -- rewrite Hc. simpl. by rewrite Hid, <- app_assoc.
        -- rewrite <- app_comm_cons. by rewrite Hstep.
Qed.

(** Only keys of the node map complete. *)
Lemma run_nodes_completed_own graph : ∀ ids s w s' w',
  run_nodes graph ids s w = (Normal s', w') →
  ∀ id, id ∈ completed s' →
        id ∈ completed s ∨ is_Some (get id (nodes graph)).
Proof.
  induction ids as [|id ids IH]; intros s w s' w' Hrun x Hx.
  - simpl in Hrun. simplify_eq. by left.
  - destruct (run_nodes_cons graph id s w)
      as [[_ Hthrow]|[(r & w2 & _ & _ & _ & _ & Hstep)
                     |(node & r & w2 & Hget & _ & Hid & _ & Hstep)]].
    + destruct (Hthrow ids) as [e He]. congruence.
    + rewrite Hstep in Hrun. simplify_eq. by left.
    + rewrite Hstep in Hrun.
      destruct (IH _ _ _ _ Hrun x Hx) as [Hin|Hown]; [|by right].
      simpl in Hin. rewrite Hid in Hin.
      apply elem_of_app in Hin as [Hin| ->%list_elem_of_singleton];
        [by left|right; by eexists].
Qed.

Lemma NoDup_split_unique (pre pre' post post' : list string) n :
  NoDup (pre ++ n :: post) →
  (pre ++ n :: post)%list = (pre' ++ n :: post')%list →
  pre = pre' ∧ post = post'.
Proof.
  revert pre'. induction pre as [|x pre IH]; intros pre' Hnd Heq.
  - destruct pre' as [|y pre']; simpl in *; [by simplify_eq|].
    simplify_eq. apply NoDup_cons in Hnd as [Hn _]. set_solver.
  - destruct pre' as [|y pre']; simpl in *; simplify_eq.
    + apply NoDup_cons in Hnd as [Hn _]. set_solver.
    + apply NoDup_cons in Hnd as [_ Hnd].
      destruct (IH pre' Hnd) as [-> ->]; done.
Qed.

Lemma sum_tokens_snoc rs id r :
  sum_tokens (rs ++ [(id, r)]) = sum_tokens rs + tokens_of r.
Proof.
  unfold sum_tokens. rewrite sum_list_with_app. simpl. lia.
Qed.

Lemma Object_keys_set {V} k (v : V) obj x :
  x ∈ Object_keys (set k v obj) → x = k ∨ x ∈ Object_keys obj.
Proof.
  unfold Object_keys. induction obj as [|[k' v'] obj IH]; simpl.
  - set_solver.
  - case_decide; simpl; set_solver.
Qed.

(** The loop keeps the token total equal to the sum over the recorded
    results, the outputs those of the last writers, and every key of the
    outputs the output key of a completed node. *)
Lemma run_nodes_facts graph order0 : ∀ ids s w s' w',
  failed s = [] → run_invariant order0 s → NoDup order0 →
  (completed s ++ ids)%list `prefix_of` order0 →
  tokens s = sum_tokens (results s) → last_writer_wins graph s →
  outputs_of_completed graph s →
  run_nodes graph ids s w = (Normal s', w') →
  tokens s' = sum_tokens (results s') ∧ last_writer_wins graph s' ∧
  outputs_of_completed graph s'.
Proof.
  induction ids as [|id ids IH];
    intros s w s' w' Hf Hinv Hnd Hpre Htok Hout Hkeys' Hrun.
  - simpl in Hrun. by simplify_eq.
  - assert ((completed s ++ [id])%list `prefix_of` order0) as Hpre1.
    { etrans; [|done]. apply prefix_app, prefix_cons, prefix_nil. }
    assert (id ∉ completed s) as Hfresh.
    { destruct Hpre1 as [k ->]. rewrite <- app_assoc in Hnd.
      apply NoDup_app in Hnd as (_ & Hdis & _). intros Hin.
      apply (Hdis _ Hin). left. }
    assert (Object_keys (results s) = completed s) as Hkeys.
    { destruct Hinv as (_ & Hkeys & _). by rewrite Hf, app_nil_r in Hkeys. }
    assert (∀ r, set id r (results s) = (results s ++ [(id, r)])%list)
      as Hset.
    { intros r. apply set_fresh. by rewrite Hkeys. }
    destruct (run_nodes_cons graph id s w)
      as [[_ Hthrow]|[(r & w2 & Hid & Hr & Hnone & _ & Hstep)
                     |(node & r & w2 & Hget & _ & Hid & Hr & Hstep)]].
    + destruct (Hthrow ids) as [e He]. congruence.
    + rewrite Hstep in Hrun. simplify_eq. split_and!.
      * simpl. rewrite Hset, sum_tokens_snoc, Htok. unfold tokens_of.
        rewrite Hnone. simpl. lia.
      * intros i id1 node1 r1 Hi Hget1 Hr1 Hlater. simpl in *.
        assert (id1 ≠ nodeId r) as Hne.
        { intros ->. apply Hfresh. by eapply list_elem_of_lookup_2. }
        rewrite get_set_ne in Hr1 by done. by apply (Hout i id1 node1 r1).
      * done.
    + rewrite Hstep in Hrun.
      eapply IH in Hrun; [done|done| |done| | | |].
      * by eapply run_invariant_step_success.
      * simpl. by rewrite Hid, <- app_assoc.
      * simpl. rewrite Hid, Hset, sum_tokens_snoc, Htok. unfold tokens_of.
        by destruct (tokensUsed (metrics r)) as [[|k]|]; simpl; lia.
      * intros i id1 node1 r1 Hi Hget1 Hr1 Hlater. simpl in *.
        rewrite Hid in *.
        apply lookup_app_Some in Hi as [Hi|[Hlen Hi]].
        -- assert (id1 ≠ id) as Hne.
           { intros ->. apply Hfresh. by eapply list_elem_of_lookup_2. }
           rewrite get_set_ne in Hr1 by done.
           assert (output node ≠ output node1) as Hkey.
           { apply (Hlater (length (completed s)) id node);
               [|by rewrite lookup_app_r, Nat.sub_diag|done].
             by eapply lookup_lt_Some. }
           rewrite get_set_ne by done.
           apply (Hout i id1 node1 r1); [done..|].
           intros j id' node' Hj Hlj. apply (Hlater j id' node' Hj).
           by apply lookup_app_l_Some.
        -- apply list_lookup_singleton_Some in Hi as [_ <-].
           rewrite get_set_eq in Hr1. simplify_eq. apply get_set_eq.
      * intros k Hk. simpl in *. rewrite Hid.
        apply Object_keys_set in Hk as [->|Hk].
        -- exists id, node. split_and!; [|done..].
           apply elem_of_app. right. left.
        -- destruct (Hkeys' k Hk) as (id1 & node1 & Hin & Hget1 & Hk1).
           exists id1, node1. split_and!; [|done..].
           apply elem_of_app. by left.
Qed.

Lemma run_graph_facts graph input w t0 ids s w1 :
  run_graph graph input w = (Done (t0, ids, s), w1) →
  tokens s = sum_tokens (results s) ∧ last_writer_wins graph s ∧
  outputs_of_completed graph s.
Proof.
  intros (sort & Hsort & -> & _ & Hrun)%run_graph_Done.
  pose proof (topologicalSort_sorted_NoDup _ _ Hsort) as Hnd.
  eapply run_nodes_facts in Hrun;
    [done|done|apply run_invariant_initial|done|done|done| |].
  - intros i id node r Hi. simpl in Hi. by rewrite lookup_nil in Hi.
  - intros k Hk. simpl in Hk. by apply not_elem_of_nil in Hk.
Qed.

(** What [extractFinalOutput] reads at the end of a run whose order ends
    with a key of the node map. *)
Lemma final_output_facts graph input w t0 ids s w1 lastId lastNode :
  run_graph graph input w = (Done (t0, ids, s), w1) →
  last ids = Some lastId → get lastId (nodes graph) = Some lastNode →
  ∃ res w2,
    execute graph input w = (Done res, w2) ∧
    nodeResults res = results s ∧
    graph_success res = bool_decide (length (failed s) = 0) ∧
    (∀ v, get (output lastNode) (outputs (context s)) = Some v →
          graph_output res = if truthy v then v else JNull) ∧
    (get (output lastNode) (outputs (context s)) = None →
     graph_output res =
       if decide (output lastNode ∈ Object_prototype_names)
       then JBuiltin (output lastNode) else JNull) ∧
    (failed s = [] →
     ∃ r, get lastId (results s) = Some r ∧ success r = true ∧
          get (output lastNode) (outputs (context s))
            = Some (node_output r)) ∧
    ((∀ id node, id ∈ completed s → get id (nodes graph) = Some node →
                 output node ≠ output lastNode) →
     get (output lastNode) (outputs (context s)) = None).
Proof.
  intros Hrun Hlast Hget.
  destruct (execute_Done _ _ _ _ _ _ _ Hrun) as (out & Hout & Hex).
  destruct (run_graph_facts _ _ _ _ _ _ _ Hrun) as (_ & Hwins & Hfrom).
  destruct (run_graph_invariant _ _ _ _ _ _ _ Hrun)
    as (Hnd & _ & _ & _ & Hok & _).
  rewrite (extractFinalOutput_last _ _ _ _ _ Hlast Hget) in Hout.
  simplify_eq. eexists _, _. split; [done|]. simpl.
  unfold or_else, stored_output, read_output, read.
  split_and!; [done|done| | | |].
  - intros v ->. done.
  - intros ->. by destruct (decide _).
  - intros Hf.
    apply run_graph_Done in Hrun as (sort & _ & -> & _ & Hrun).
    apply run_nodes_cut in Hrun
      as [[_ Hc]|(pre & n & post & _ & Hf' & _)]; simpl in *.
    2:{ rewrite Hf in Hf'. by destruct (failed s). }
    assert (lastId ∈ completed s) as Hin.
    { rewrite Hc. by eapply last_Some_elem_of. }
    destruct (Hok lastId Hin) as (r & Hr & Hs).
    exists r. split_and!; [done..|].
    apply last_Some in Hlast as [pre Hpre].
    apply (Hwins (length pre) lastId lastNode r); [|done..|].
    + by rewrite Hc, Hpre, lookup_app_r, Nat.sub_diag.
    + intros j id' node' Hj Hlookup _. rewrite Hc, Hpre in Hlookup.
      apply lookup_lt_Some in Hlookup. rewrite length_app in Hlookup.
      simpl in Hlookup. lia.
  - intros Hnone.
    destruct (get (output lastNode) (outputs (context s))) as [v|] eqn:Hv;
      [|done].
    apply get_Some_key, Hfrom in Hv as (id & node & Hin & Hget' & Hk).
    by apply Hnone in Hget'.
Qed.
End OrchestratorFacts.


(** ** The router *)

(** C7.  A node that carries a model is routed to that model whatever its
    task text and the runtime context are: the decision is the node's
    agent, the node's model, the fixed justification of an explicit choice
    and the cost estimate of that model, none of which reads the task or
    the context.  In particular a node whose task is "scan" gets its
    overriding model, where the keyword heuristic would choose haiku. *)
Theorem selectModel_override :
  (∀ fl node ctx m,
     model node = Some m →
     selectModel fl node ctx =
       {| routed_agent := agent node;
          routed_model := m;
          reasoning := "Explicitly specified in node definition";
          estimatedCost := estimateCost fl m (Q2Qc 10000) (Q2Qc 2000) |}) ∧
  (∀ fl ctx m,
     routed_model (selectModel fl (overriddenScan m) ctx) = m ∧
     selectModelByHeuristics (overriddenScan m) ctx = haiku).
Proof.
  split.
  - intros fl node ctx m Hm. unfold selectModel. by rewrite Hm.
  - intros fl ctx m. split; reflexivity.
Qed.

(** The override on a node with an exploration task, in a context with
    many files. *)
Lemma selectModel_override_witness :
  selectModel no_rounding (overriddenScan sonnet)
    {| fileCount := Some 100%Z; complexity := Some low |} =
  {| routed_agent := explore;
     routed_model := sonnet;
     reasoning := "Explicitly specified in node definition";
     estimatedCost := estimateCost no_rounding sonnet (Q2Qc 10000) (Q2Qc 2000) |}.
Proof. apply (proj1 selectModel_override). reflexivity. Defined.

(** The estimator is monotone in the two rates under any rounding that is
    monotone and leaves zero alone, as rounding to the nearest double
    does. *)
Section CostMonotone.
Variable fl : Qc → Qc.
Hypothesis fl_monotone : ∀ x y, (x ≤ y)%Qc → (fl x ≤ fl y)%Qc.
Hypothesis fl_zero : fl 0%Qc = 0%Qc.

Lemma scaled_nonneg (x : Qc) : (0 ≤ x)%Qc → (0 ≤ fl (x / Q2Qc 1000000))%Qc.
Proof.
  intros Hx. rewrite <- fl_zero. apply fl_monotone.
  unfold Qcdiv. rewrite <- (Qcmult_0_l (/ Q2Qc 1000000)).
  by apply Qcmult_le_mono_nonneg_r.
Qed.

Lemma term_monotone (x r1 r2 : Qc) :
  (0 ≤ x)%Qc → (r1 ≤ r2)%Qc →
  (fl (fl (x / Q2Qc 1000000) * r1) ≤ fl (fl (x / Q2Qc 1000000) * r2))%Qc.
Proof.
  intros Hx Hr. apply fl_monotone, Qcmult_le_mono_nonneg_l; [|done].
  by apply scaled_nonneg.
Qed.

Lemma estimateCost_rates (m1 m2 : ClaudeModel) (i o : Qc) :
  (0 ≤ i)%Qc → (0 ≤ o)%Qc →
  (costPer1MInputTokens (MODEL_CONFIGS fl m1)
     ≤ costPer1MInputTokens (MODEL_CONFIGS fl m2))%Qc →
  (costPer1MOutputTokens (MODEL_CONFIGS fl m1)
     ≤ costPer1MOutputTokens (MODEL_CONFIGS fl m2))%Qc →
  (estimateCost fl m1 i o ≤ estimateCost fl m2 i o)%Qc.
Proof.
  intros Hi Ho Hin Hout. unfold estimateCost. apply fl_monotone.
  apply Qcplus_le_compat; by apply term_monotone.
Qed.

(** C8.  For non-negative token counts, a model whose two rates are at
    least those of another never has the lower estimate; so
    haiku ≤ sonnet ≤ opus. *)
Theorem estimateCost_monotone :
  (∀ m1 m2 i o,
     (0 ≤ i)%Qc → (0 ≤ o)%Qc →
     (costPer1MInputTokens (MODEL_CONFIGS fl m1)
        ≤ costPer1MInputTokens (MODEL_CONFIGS fl m2))%Qc →
     (costPer1MOutputTokens (MODEL_CONFIGS fl m1)
        ≤ costPer1MOutputTokens (MODEL_CONFIGS fl m2))%Qc →
     (estimateCost fl m1 i o ≤ estimateCost fl m2 i o)%Qc) ∧
  (∀ i o,
     (0 ≤ i)%Qc → (0 ≤ o)%Qc →
     (estimateCost fl haiku i o ≤ estimateCost fl sonnet i o)%Qc ∧
     (estimateCost fl sonnet i o ≤ estimateCost fl opus i o)%Qc).
Proof.
  split; [apply estimateCost_rates|].
  intros i o Hi Ho.
  split; apply estimateCost_rates; try done; simpl; by apply fl_monotone.
Qed.
End CostMonotone.

(** The three estimates that [selectModel] reports, in exact arithmetic. *)
Lemma estimateCost_monotone_witness :
  (estimateCost no_rounding haiku (Q2Qc 10000) (Q2Qc 2000)
     ≤ estimateCost no_rounding sonnet (Q2Qc 10000) (Q2Qc 2000))%Qc ∧
  (estimateCost no_rounding sonnet (Q2Qc 10000) (Q2Qc 2000)
     ≤ estimateCost no_rounding opus (Q2Qc 10000) (Q2Qc 2000))%Qc.
Proof.
  apply (proj2 (estimateCost_monotone no_rounding (λ x y H, H) eq_refl));
    by vm_compute.
Defined.

(** ** Runs of [execute] *)

Section RunTheorems.
Variable fl : Qc → Qc.
Variable JSON_stringify : JsValue → Completion (option string).
Variable JSON_stringify_indented : JsValue → Completion (option string).
Context {World : Type}.
Variable Date_now : World → Z * World.
Variable invokeSubagent :
  SubagentType → ClaudeModel → string → list (string * JsValue) →
  World → Completion JsValue * World.

Abbreviation executeNode :=
  (executeNode fl JSON_stringify JSON_stringify_indented Date_now
               invokeSubagent).
Abbreviation run_nodes :=
  (run_nodes fl JSON_stringify JSON_stringify_indented Date_now
             invokeSubagent).
Abbreviation run_graph :=
  (run_graph fl JSON_stringify JSON_stringify_indented Date_now
             invokeSubagent).
Abbreviation execute :=
  (execute fl JSON_stringify JSON_stringify_indented Date_now
           invokeSubagent).
Abbreviation completed s := (completedNodes (metadata (context s))).
Abbreviation failed s := (failedNodes (metadata (context s))).

(** C5.  A fault of the backend makes the result of the node a failure
    carrying the text of the fault.  When the loop has gone through the
    nodes [pre] without a failure and the next node fails, it ends in the
    state that records this failure and in the world that the failing
    node left, whatever nodes follow.  When a node of the execution order
    has a failing result, the loop has stopped there: the nodes before it
    are the completed ones, it is the one failed node, the results hold
    an entry for each of those and for no later node, the loop variables
    and the world are those of the order cut after the failing node, and
    the run reports no success.  On the chain A ← B ← C entered at C, with
    a backend that fails on B, the results are those of A (a success) and
    of B (a failure) and nothing else. *)
Theorem fail_fast :
  (∀ id node ctx w prompt e w',
     buildPrompt JSON_stringify_indented node
       (prepareDependencyInputs node ctx) (input ctx) = Normal prompt →
     (let routing :=
        selectModel fl node
          {| fileCount := None;
             complexity := Some (estimateComplexity (task node)) |} in
      invokeSubagent (routed_agent routing) (routed_model routing) prompt
        (prepareDependencyInputs node ctx) (Date_now w).2) = (Throw e, w') →
     let r := (executeNode id node ctx w).1 in
     success r = false ∧ error r = Some (error_text e) ∧
     node_output r = JNull) ∧
  (∀ graph pre n post node s0 w0 s1 w1,
     run_nodes graph pre s0 w0 = (Normal s1, w1) →
     failed s1 = failed s0 →
     get n (nodes graph) = Some node →
     success (executeNode n node (context s1) w1).1 = false →
     run_nodes graph (pre ++ n :: post) s0 w0
       = (Normal (record_failure (executeNode n node (context s1) w1).1 s1),
          (executeNode n node (context s1) w1).2)) ∧
  (∀ graph input w t0 order s w1 pre n post r,
     run_graph graph input w = (Done (t0, order, s), w1) →
     order = (pre ++ n :: post)%list →
     get n (results s) = Some r → success r = false →
     completed s = pre ∧ failed s = [n] ∧
     Object_keys (results s) = (pre ++ [n])%list ∧
     (∀ c, c ∈ post → get c (results s) = None) ∧
     run_nodes graph (pre ++ [n]) (initial_state input t0) (Date_now w).2
       = (Normal s, w1) ∧
     ∃ res w2, execute graph input w = (Done res, w2) ∧
               graph_success res = false ∧ nodeResults res = results s) ∧
  (∃ resultA resultB counts w2,
     sample_execute backend_failing_plan chainGraph JNull 0%nat
       = (Done {| graph_success := false;
                  graph_output := JNull;
                  nodeResults := [("A", resultA); ("B", resultB)];
                  graph_metrics := counts |}, w2) ∧
     success resultA = true ∧ success resultB = false ∧
     error resultB = Some "backend unavailable" ∧
     nodeCount counts = 3 ∧ successCount counts = 1 ∧
     failureCount counts = 1).
Proof.
  split_and!.
  - apply executeNode_backend_fault.
  - intros graph pre n post node s0 w0 s1 w1 Hpre Hfailed Hget Hfail.
    destruct (run_nodes_continue _ _ _ _ _ graph (n :: post) pre s0 w0 s1 w1
                Hpre Hfailed) as [_ ->].
    apply read_Own in Hget. simpl. rewrite Hget.
    destruct (executeNode n node (context s1) w1) as [r w2].
    simpl in Hfail. by rewrite Hfail.
  - intros graph input w t0 order s w1 pre n post r Hrun -> Hget Hr.
    pose proof (run_graph_invariant _ _ _ _ _ _ _ _ _ _ _ _ Hrun)
      as (Hnd & Hlen & Hkeys & Hprefix & Hok & Hbad).
    pose proof (execute_Done _ _ _ _ _ _ _ _ _ _ _ _ Hrun) as (out & _ & Hex).
    apply run_graph_Done in Hrun as (sort & Hsort & Horder & -> & Hrun).
    assert (n ∈ failed s) as Hn.
    { assert (n ∈ Object_keys (results s)) as Hin by by eapply get_Some_key.
      rewrite Hkeys in Hin. apply elem_of_app in Hin as [Hin|Hin]; [|done].
      destruct (Hok n Hin) as (r' & Hget' & Hr'). congruence. }
    apply run_nodes_cut in Hrun
      as [[Hf _]|(pre' & n' & post' & Heq & Hf & Hc & Hcut)]; simpl in *.
    { rewrite Hf in Hn. by apply not_elem_of_nil in Hn. }
    rewrite Hf in Hn. apply list_elem_of_singleton in Hn as <-.
    apply NoDup_split_unique in Heq as [-> ->]; [|done].
    rewrite Hf, Hc in *. split_and!; [done..| |done|].
    + intros c Hc'. apply get_None_key. rewrite Hkeys.
      apply NoDup_app in Hnd as (_ & Hdis & Hnd').
      apply NoDup_cons in Hnd' as [Hn' _].
      intros [Hin| ->%list_elem_of_singleton]%elem_of_app; [|done].
      apply (Hdis _ Hin). by right.
    + eexists _, _. split; [done|]. done.
  - eexists _, _, _, _. split_and!; [vm_compute; reflexivity|done..].
Qed.


(** C6, as the code has it.  In a run none of whose assignments is under
    the key [__proto__], when the execution order ends with a key of the
    node map, the output of the run is the value stored in the context
    under the output key of that last node if that value is truthy, and
    [null] if it is falsy; when no value is stored under the key, it is
    [null] too, unless the key is the name of a member of
    [Object.prototype].  The value stored under the key is the output of
    the last completed node that declares the key, and none is stored when
    no completed node declares it; after a run without failure it is the
    output of the last node itself.  The run is a success exactly when no
    node failed, which is exactly when every recorded node result is a
    success. *)
Theorem final_output_and_success graph input w t0 ids s w1 lastId lastNode :
  run_graph graph input w = (Done (t0, ids, s), w1) →
  ordinary_keys graph ids →
  last ids = Some lastId →
  get lastId (nodes graph) = Some lastNode →
  ∃ res w2,
    execute graph input w = (Done res, w2) ∧
    (∀ v, get (output lastNode) (outputs (context s)) = Some v →
          graph_output res = if truthy v then v else JNull) ∧
    (get (output lastNode) (outputs (context s)) = None →
     output lastNode ∉ Object_prototype_names →
     graph_output res = JNull) ∧
    (∀ i id node r,
       completed s !! i = Some id →
       get id (nodes graph) = Some node →
       output node = output lastNode →
       get id (nodeResults res) = Some r →
       (∀ j id' node',
          i < j → completed s !! j = Some id' →
          get id' (nodes graph) = Some node' →
          output node' ≠ output lastNode) →
       get (output lastNode) (outputs (context s))
         = Some (node_output r)) ∧
    ((∀ id node, id ∈ completed s → get id (nodes graph) = Some node →
                 output node ≠ output lastNode) →
     get (output lastNode) (outputs (context s)) = None) ∧
    (graph_success res = true →
     ∃ r, get lastId (nodeResults res) = Some r ∧
          graph_output res =
            if truthy (node_output r) then node_output r else JNull) ∧
    (graph_success res = true ↔ failed s = []) ∧
    (graph_success res = true ↔
     ∀ id r, get id (nodeResults res) = Some r → success r = true).
Proof.
  intros Hrun _ Hlast Hget.
  pose proof (run_graph_invariant _ _ _ _ _ _ _ _ _ _ _ _ Hrun)
    as (_ & Hlen & Hkeys & _ & Hok & Hbad).
  destruct (run_graph_facts _ _ _ _ _ _ _ _ _ _ _ _ Hrun)
    as (_ & Hwins & _).
  destruct (final_output_facts _ _ _ _ _ _ _ _ _ _ _ _ _ _ Hrun Hlast Hget)
    as (res & w2 & Hex & Hres & Hsuccess & Hsome & Hnone & Hlastr & Habsent).
  exists res, w2. rewrite Hres, Hsuccess, bool_decide_eq_true.
  split_and!; try done.
  - intros Hn Hproto. rewrite (Hnone Hn). by rewrite decide_False.
  - intros i id node r Hi Hnode Hkey Hr Hlater. rewrite <- Hkey.
    apply (Hwins i id node r); [done..|].
    intros j id' node' Hj Hlookup Hnode'. rewrite Hkey. by eapply Hlater.
  - intros Hf%nil_length_inv.
    destruct (Hlastr Hf) as (r & Hr & _ & Hstored).
    exists r. split; [done|]. by apply Hsome.
  - split; [apply nil_length_inv|by intros ->].
  - split.
    + intros Hf%nil_length_inv id r Hr. rewrite Hf, app_nil_r in Hkeys.
      destruct (Hok id) as (r' & Hr' & Hs); [|congruence].
      rewrite <- Hkeys. by eapply get_Some_key.
    + intros Hall. destruct (failed s) as [|id l] eqn:Hf; [done|].
      destruct (Hbad id) as (r & Hr & Hs); [left|].
      apply Hall in Hr. congruence.
Qed.

End RunTheorems.

(** The falsy values. *)
Lemma falsy_values :
  Forall (λ v, truthy v = false)
         [JNum 0; JStr EmptyString; JBool false; JUndefined; JNull; JNaN].
Proof. repeat constructor. Qed.


(** In the run of the chain in which B fails, C is never executed. *)
Lemma fail_fast_witness :
  completedNodes (metadata (context chain_final_state)) = ["A"] ∧
  failedNodes (metadata (context chain_final_state)) = ["B"] ∧
  Object_keys (results chain_final_state) = ["A"; "B"] ∧
  (∀ c, c ∈ ["C"] → get c (results chain_final_state) = None) ∧
  run_nodes no_rounding sample_stringify sample_stringify tick
    backend_failing_plan chainGraph ["A"; "B"]
    (initial_state JNull 0) (tick 0%nat).2 = (Normal chain_final_state, 5%nat) ∧
  ∃ res w2,
    sample_execute backend_failing_plan chainGraph JNull 0%nat
      = (Done res, w2) ∧
    graph_success res = false ∧ nodeResults res = results chain_final_state.
Proof.
  eapply (proj1 (proj2 (proj2 (fail_fast no_rounding sample_stringify
                                 sample_stringify tick
                                 backend_failing_plan)))
            chainGraph JNull 0%nat 0%Z ["A"; "B"; "C"] chain_final_state
            5%nat ["A"] "B" ["C"]).
  - vm_compute. reflexivity.
  - reflexivity.
  - vm_compute. reflexivity.
  - reflexivity.
Defined.

(** The run of the chain A ← B ← C on the simulated backend of the
    source: the output is the answer of the last node, C. *)
Lemma final_output_and_success_witness :
  ∃ res w2,
    sample_execute simulated_invokeSubagent chainGraph JNull 0%nat
      = (Done res, w2) ∧
    (∀ v, get "c" (outputs (context chain_simulated_state)) = Some v →
          graph_output res = if truthy v then v else JNull) ∧
    (get "c" (outputs (context chain_simulated_state)) = None →
     "c" ∉ Object_prototype_names →
     graph_output res = JNull) ∧
    (∀ i id node r,
       completedNodes (metadata (context chain_simulated_state)) !! i
         = Some id →
       get id (nodes chainGraph) = Some node →
       output node = "c" →
       get id (nodeResults res) = Some r →
       (∀ j id' node',
          i < j →
          completedNodes (metadata (context chain_simulated_state)) !! j
            = Some id' →
          get id' (nodes chainGraph) = Some node' →
          output node' ≠ "c") →
       get "c" (outputs (context chain_simulated_state))
         = Some (node_output r)) ∧
    ((∀ id node,
        id ∈ completedNodes (metadata (context chain_simulated_state)) →
        get id (nodes chainGraph) = Some node →
        output node ≠ "c") →
     get "c" (outputs (context chain_simulated_state)) = None) ∧
    (graph_success res = true →
     ∃ r, get "C" (nodeResults res) = Some r ∧
          graph_output res =
            if truthy (node_output r) then node_output r else JNull) ∧
    (graph_success res = true ↔
     failedNodes (metadata (context chain_simulated_state)) = []) ∧
    (graph_success res = true ↔
     ∀ id r, get id (nodeResults res) = Some r → success r = true).
Proof.
  eapply (final_output_and_success no_rounding sample_stringify
            sample_stringify tick simulated_invokeSubagent chainGraph JNull
            0%nat 0%Z ["A"; "B"; "C"] chain_simulated_state _ "C"
            (mkNode general_purpose "third" (Some ["B"]) "c")).
  - vm_compute. reflexivity.
  - apply chainGraph_ordinary_keys.
  - reflexivity.
  - reflexivity.
Defined.


(** C6, as stated, fails when the stored value is falsy: the one node of
    the run succeeds and stores the number 0 under its output key, and the
    output of the run is [null], not 0. *)
Lemma final_output_drops_falsy_value :
  ∃ s w1 res w2,
    sample_run_graph (backend_returning (JNum 0)) singleGraph JNull 0%nat
      = (Done (0%Z, ["a"], s), w1) ∧
    get "oa" (outputs (context s)) = Some (JNum 0) ∧
    sample_execute (backend_returning (JNum 0)) singleGraph JNull 0%nat
      = (Done res, w2) ∧
    graph_success res = true ∧
    graph_output res = JNull ∧
    graph_output res ≠ JNum 0.
Proof.
  eexists _, _, _, _.
  split_and!; [vm_compute; reflexivity|reflexivity|vm_compute; reflexivity|
               reflexivity|reflexivity|done].
Qed.

(** * Further properties of the code *)

(** ** The order of execution *)

Section SortMore.
Variable g : Graph.
Implicit Types (st : SortState) (n : string) (fuel : nat).

(** A call that completes or throws does the same with more fuel. *)
Lemma visit_more_fuel fuel : ∀ n st fuel',
  visit g fuel n st ≠ OutOfFuel → (fuel ≤ fuel')%nat →
  visit g fuel' n st = visit g fuel n st.
Proof.
  induction fuel as [|fuel IH]; intros n st fuel' Hrun Hle; [done|].
  destruct fuel' as [|fuel']; [lia|]. simpl in *.
  case_decide; [done|].
  destruct (read n (nodes g)) as [node| |]; [|done..].
  destruct (dependencies node) as [deps|]; [|done].
  assert (visit_dependencies g (visit g fuel') n deps
            {| visited := {[n]} ∪ visited st; order := order st |}
          = visit_dependencies g (visit g fuel) n deps
              {| visited := {[n]} ∪ visited st; order := order st |}) as ->;
    [|done].
  assert (visit_dependencies g (visit g fuel) n deps
            {| visited := {[n]} ∪ visited st; order := order st |}
          ≠ OutOfFuel) as Hd.
  { intros Heq. by rewrite Heq in Hrun. }
  clear Hrun. revert Hd.
  generalize ({| visited := {[n]} ∪ visited st; order := order st |}).
  induction deps as [|d deps IHd]; intros st1 Hd; simpl in *; [done|].
  destruct (read d (nodes g)); [| |done];
    (rewrite (IH d st1 fuel'); [|by destruct (visit g fuel d st1)|lia]);
    (destruct (visit g fuel d st1) as [st2| |]; [|done..]);
    by apply IHd.
Qed.

Lemma visit_entries_more_fuel fuel fuel' : ∀ entries st,
  visit_entries g fuel entries st ≠ OutOfFuel → (fuel ≤ fuel')%nat →
  visit_entries g fuel' entries st = visit_entries g fuel entries st.
Proof.
  induction entries as [|e entries IH]; intros st Hrun Hle; simpl in *; [done|].
  rewrite (visit_more_fuel fuel e st fuel'); [|by destruct (visit g fuel e st)|done].
  destruct (visit g fuel e st) as [st1| |]; [|done..]. by apply IH.
Qed.

(** A first visit appends its node last. *)
Lemma visit_fresh_last fuel n st st' :
  visit g fuel n st = Done st' → n ∉ visited st →
  ∃ l, order st' = (l ++ [n])%list.
Proof.
  destruct fuel as [|fuel]; [done|]. simpl. intros Hrun Hn.
  rewrite decide_False in Hrun by done.
  destruct (read n (nodes g)) as [node| |]; [| |done].
  - destruct (match dependencies node with
              | Some deps => _ | None => _ end) as [st2| |]; [|done..].
    simplify_eq. by eexists.
  - simplify_eq. by eexists.
Qed.

(** A first visit of a node without dependencies appends it and nothing
    else. *)
Lemma visit_leaf fuel n node st :
  get n (nodes g) = Some node → no_dependencies node = true →
  n ∉ visited st →
  visit g (S fuel) n st
    = Done {| visited := {[n]} ∪ visited st;
              order := (order st ++ [n])%list |}.
Proof.
  intros Hget%read_Own Hleaf Hn. simpl. rewrite decide_False by done.
  rewrite Hget. unfold no_dependencies in Hleaf.
  destruct (dependencies node) as [[|d deps]|]; try done.
Qed.

Lemma visit_entries_leaves fuel : ∀ entries st,
  NoDup entries →
  (∀ e, e ∈ entries →
        (e ∉ visited st) ∧
        (∃ node, get e (nodes g) = Some node ∧ no_dependencies node = true)) →
  ∃ st', visit_entries g (S fuel) entries st = Done st' ∧
         order st' = (order st ++ entries)%list ∧
         ∀ x, x ∈ visited st' ↔ x ∈ entries ∨ x ∈ visited st.
Proof.
  induction entries as [|e entries IH]; intros st Hnd Hall.
  - exists st. simpl. rewrite app_nil_r. set_solver.
  - apply NoDup_cons in Hnd as [He Hnd].
    destruct (Hall e) as (Hfresh & node & Hget & Hleaf); [left|].
    cbn [visit_entries]. rewrite (visit_leaf fuel e node st Hget Hleaf Hfresh).
    destruct (IH {| visited := {[e]} ∪ visited st;
                    order := (order st ++ [e])%list |} Hnd)
      as (st' & Hrun & Ho & Hv).
    { intros e' He'. destruct (Hall e') as [? ?]; [by right|].
      split; [|done]. simpl. set_solver. }
    exists st'. split; [done|]. split.
    + rewrite Ho. simpl. by rewrite <- app_assoc.
    + intros x. rewrite Hv. simpl. set_solver.
Qed.
End SortMore.

Lemma default_entries_leaf g e :
  e ∈ default_entries g →
  ∃ node, get e (nodes g) = Some node ∧ no_dependencies node = true.
Proof.
  unfold default_entries. intros [Hleaf He]%list_elem_of_filter.
  destruct (get e (nodes g)) as [node|]; simpl in Hleaf; [|done].
  exists node. split; [done|]. by apply Is_true_true.
Qed.

(** X1.  [topologicalSort] returns an order or throws on every graph,
    cycles included: the visited set bounds the depth of [visit] by the
    number of nodes, and a deeper recursion gives the same outcome. *)
Theorem topologicalSort_terminates_within_bound g k :
  topologicalSort g ≠ OutOfFuel ∧
  visit_entries g (S (length (nodes g)) + k) (entryNodes g)
    {| visited := ∅; order := [] |}
  = visit_entries g (S (length (nodes g))) (entryNodes g)
      {| visited := ∅; order := [] |}.
Proof.
  split; [apply topologicalSort_terminates|].
  apply visit_entries_more_fuel; [|lia].
  pose proof (topologicalSort_terminates g) as Hterm.
  unfold topologicalSort in Hterm. by destruct (visit_entries _ _ _ _).
Qed.

(** X2.  Whenever [topologicalSort] returns, on a cyclic graph too, the
    order has no duplicates and holds exactly the ids reachable from an
    entry point, each of them a key of the node map or the name of a
    member of [Object.prototype]; every dependency of an ordered node is
    in the order, and stands earlier than the node unless the two lie on a
    cycle; the warning names exactly the keys that are not in the
    order. *)
Theorem topologicalSort_on_any_graph g r :
  topologicalSort g = Done r →
  NoDup (sorted r) ∧
  (∀ x, x ∈ sorted r ↔ reachable_from_entry g x) ∧
  (∀ x, x ∈ sorted r →
        is_Some (get x (nodes g)) ∨ x ∈ Object_prototype_names) ∧
  (∀ m d, m ∈ sorted r → dep g m d →
          d ∈ sorted r ∧
          (strictly_earlier (sorted r) d m ∨ tc (dep g) d m)) ∧
  (∀ x, x ∈ warned_unreachable r ↔
        x ∈ Object_keys (nodes g) ∧ x ∉ sorted r).
Proof.
  intros Hrun.
  pose proof (topologicalSort_sorted_NoDup _ _ Hrun) as Hnd.
  pose proof (topologicalSort_sorted_found _ _ Hrun) as Hpresent.
  apply topologicalSort_Done in Hrun as (st & Hinv & Ho & Hw & Hin).
  split_and!; [done..| |].
  - intros m d Hm Hmd. split.
    + apply Hin. apply Hin in Hm as (e & He & Hreach).
      exists e. split; [done|]. by eapply rtc_r.
    + rewrite Ho in Hm. apply list_elem_of_lookup in Hm as [i Hi].
      destruct (inv_before _ _ _ Hinv i m d Hi Hmd) as [(j & Hj & Hjd)|Htc];
        [left|by right].
      exists i, j. by rewrite Ho.
  - intros x. rewrite Hw, list_elem_of_filter, Ho.
    rewrite (inv_visited _ _ _ Hinv). set_solver.
Qed.

Lemma topologicalSort_on_any_graph_witness :
  NoDup ["y"; "x"] ∧
  (∀ x, x ∈ ["y"; "x"] ↔ reachable_from_entry (cycleGraph (Some "x")) x) ∧
  (∀ x, x ∈ ["y"; "x"] →
        is_Some (get x (nodes (cycleGraph (Some "x"))))
        ∨ x ∈ Object_prototype_names) ∧
  (∀ m d, m ∈ ["y"; "x"] → dep (cycleGraph (Some "x")) m d →
          d ∈ ["y"; "x"] ∧
          (strictly_earlier ["y"; "x"] d m
           ∨ tc (dep (cycleGraph (Some "x"))) d m)) ∧
  (∀ x, x ∈ [] ↔
        x ∈ Object_keys (nodes (cycleGraph (Some "x"))) ∧ x ∉ ["y"; "x"]).
Proof.
  apply (topologicalSort_on_any_graph (cycleGraph (Some "x"))
           {| sorted := ["y"; "x"]; warned_unreachable := [] |}).
  vm_compute. reflexivity.
Defined.

(** X3.  Without a declared entry (absent, or the empty string) and with
    node ids that are distinct, the order holds exactly the nodes whose
    [dependencies] are absent or an empty array, in the order in which the
    node map has them; the warning names exactly the nodes that declare at
    least one dependency, which are never ordered. *)
Theorem topologicalSort_without_entry g :
  entry g = None ∨ entry g = Some EmptyString →
  NoDup (Object_keys (nodes g)) →
  ∃ r, topologicalSort g = Done r ∧
       (∀ x, x ∈ sorted r ↔
             ∃ node, get x (nodes g) = Some node ∧
                     (dependencies node = None ∨
                      dependencies node = Some [])) ∧
       sorted r `sublist_of` Object_keys (nodes g) ∧
       (∀ x, x ∈ warned_unreachable r ↔
             ∃ node d deps, get x (nodes g) = Some node ∧
                            dependencies node = Some (d :: deps)) ∧
       warned_unreachable r `sublist_of` Object_keys (nodes g).
Proof.
  intros Hentry Hnd.
  assert (entryNodes g = default_entries g) as Hentries.
  { unfold entryNodes. destruct Hentry as [-> | ->]; [done|].
    by rewrite decide_True. }
  destruct (visit_entries_leaves g (length (nodes g)) (default_entries g)
              {| visited := ∅; order := [] |}) as (st & Hrun & Ho & Hv).
  { unfold default_entries. by apply NoDup_filter. }
  { intros e He. split; [set_solver|]. by apply default_entries_leaf. }
  assert (∀ x, x ∈ default_entries g ↔
               ∃ node, get x (nodes g) = Some node ∧
                       (dependencies node = None ∨
                        dependencies node = Some [])) as Hleaves.
  { intros x. unfold default_entries. rewrite list_elem_of_filter. split.
    - intros [Hleaf Hx].
      destruct (get x (nodes g)) as [node|]; simpl in Hleaf; [|done].
      exists node. split; [done|]. unfold no_dependencies in Hleaf.
      destruct (dependencies node) as [[|d deps]|]; by eauto.
    - intros (node & Hget & Hdeps). split; [|by eapply get_Some_key].
      rewrite Hget. simpl. unfold no_dependencies.
      by destruct Hdeps as [-> | ->]. }
  unfold topologicalSort. rewrite Hentries, Hrun. eexists. split; [done|].
  simpl in *. rewrite Ho. split_and!.
  - done.
  - apply sublist_filter.
  - intros x. rewrite list_elem_of_filter, Hv. split.
    + intros [Hnot Hx]. apply key_get_is_Some in Hx as [node Hget].
      destruct (dependencies node) as [[|d deps]|] eqn:Hdeps.
      * exfalso. apply Hnot. left. apply Hleaves. by eauto.
      * by eauto.
      * exfalso. apply Hnot. left. apply Hleaves. by eauto.
    + intros (node & d & deps & Hget & Hdeps).
      split; [|by eapply get_Some_key].
      intros [Hin|Hin]; [|set_solver].
      apply Hleaves in Hin as (node' & Hget' & [Hd|Hd]); congruence.
  - apply sublist_filter.
Qed.

Lemma topologicalSort_without_entry_witness :
  ∃ r, topologicalSort leavesGraph = Done r ∧
       (∀ x, x ∈ sorted r ↔
             ∃ node, get x (nodes leavesGraph) = Some node ∧
                     (dependencies node = None ∨
                      dependencies node = Some [])) ∧
       sorted r `sublist_of` Object_keys (nodes leavesGraph) ∧
       (∀ x, x ∈ warned_unreachable r ↔
             ∃ node d deps, get x (nodes leavesGraph) = Some node ∧
                            dependencies node = Some (d :: deps)) ∧
       warned_unreachable r `sublist_of` Object_keys (nodes leavesGraph).
Proof.
  apply (topologicalSort_without_entry leavesGraph).
  - by left.
  - vm_compute. repeat constructor; set_solver.
Defined.

(** With a declared entry, the order ends with the entry. *)
Lemma declared_entry_last g e r :
  entry g = Some e → e ≠ EmptyString →
  topologicalSort g = Done r → last (sorted r) = Some e.
Proof.
  intros He Hne. unfold topologicalSort, entryNodes. rewrite He.
  rewrite decide_False by done. cbn [visit_entries].
  destruct (visit _ _ _ _) as [st| |] eqn:Hvisit; [|done..].
  intros Hr. simplify_eq. simpl.
  apply visit_fresh_last in Hvisit as [l ->]; [|set_solver].
  by rewrite last_snoc.
Qed.

(** X4.  With a declared entry, not the empty string, the order ends with
    the entry and holds exactly the entry and the nodes it depends on,
    directly or through other nodes. *)
Theorem topologicalSort_declared_entry_last g e r :
  entry g = Some e → e ≠ EmptyString →
  topologicalSort g = Done r →
  last (sorted r) = Some e ∧
  ∀ x, x ∈ sorted r ↔ rtc (dep g) e x.
Proof.
  intros He Hne Hrun. split; [by eapply declared_entry_last|].
  destruct (topologicalSort_Done _ _ Hrun) as (st & _ & _ & _ & Hin).
  intros x. rewrite Hin. unfold entryNodes. rewrite He.
  rewrite decide_False by done. set_solver.
Qed.

Lemma topologicalSort_declared_entry_last_witness :
  last ["A"; "B"; "C"] = Some "C" ∧
  ∀ x, x ∈ ["A"; "B"; "C"] ↔ rtc (dep chainGraph) "C" x.
Proof.
  apply (topologicalSort_declared_entry_last chainGraph "C"
           {| sorted := ["A"; "B"; "C"]; warned_unreachable := [] |}).
  - reflexivity.
  - done.
  - vm_compute. reflexivity.
Defined.

(** ** Node results and runs *)

Section RunMore.
Variable fl : Qc → Qc.
Variable JSON_stringify : JsValue → Completion (option string).
Variable JSON_stringify_indented : JsValue → Completion (option string).
Context {World : Type}.
Variable Date_now : World → Z * World.
Variable invokeSubagent :
  SubagentType → ClaudeModel → string → list (string * JsValue) →
  World → Completion JsValue * World.

Abbreviation executeNode :=
  (executeNode fl JSON_stringify JSON_stringify_indented Date_now
               invokeSubagent).
Abbreviation attemptNode :=
  (attemptNode fl JSON_stringify JSON_stringify_indented Date_now
               invokeSubagent).
Abbreviation run_nodes :=
  (run_nodes fl JSON_stringify JSON_stringify_indented Date_now
             invokeSubagent).
Abbreviation run_graph :=
  (run_graph fl JSON_stringify JSON_stringify_indented Date_now
             invokeSubagent).
Abbreviation execute :=
  (execute fl JSON_stringify JSON_stringify_indented Date_now
           invokeSubagent).
Abbreviation completed s := (completedNodes (metadata (context s))).
Abbreviation failed s := (failedNodes (metadata (context s))).
Abbreviation routing node :=
  (selectModel fl node
     {| fileCount := None;
        complexity := Some (estimateComplexity (task node)) |}).

(** X5.  When the prompt is built, the backend returns a value and
    [JSON.stringify] prints that value as a string, [executeNode] reports
    success with the backend's value as output, no error text, and the
    tokens of the prompt and of the printed value; a success is only
    reported in this way.  When building the prompt, the backend or
    [JSON.stringify] throws, it reports a failure with the text of what
    was thrown.  A failure has the output [null], no token count and an
    error text. *)
Theorem executeNode_succeeds_iff id node ctx w :
  let r := (executeNode id node ctx w).1 in
  (∀ prompt out w' text,
     buildPrompt JSON_stringify_indented node
       (prepareDependencyInputs node ctx) (input ctx) = Normal prompt →
     invokeSubagent (routed_agent (routing node)) (routed_model (routing node))
       prompt (prepareDependencyInputs node ctx) (Date_now w).2
       = (Normal out, w') →
     JSON_stringify out = Normal (Some text) →
     success r = true ∧ node_output r = out ∧ error r = None ∧
     tokensUsed (metrics r)
       = Some (ceil_div4 (String.length prompt)
               + ceil_div4 (String.length text))) ∧
  (success r = true →
   ∃ prompt out w' text,
     buildPrompt JSON_stringify_indented node
       (prepareDependencyInputs node ctx) (input ctx) = Normal prompt ∧
     invokeSubagent (routed_agent (routing node)) (routed_model (routing node))
       prompt (prepareDependencyInputs node ctx) (Date_now w).2
       = (Normal out, w') ∧
     JSON_stringify out = Normal (Some text)) ∧
  (∀ e,
     buildPrompt JSON_stringify_indented node
       (prepareDependencyInputs node ctx) (input ctx) = Throw e →
     success r = false ∧ error r = Some (error_text e)) ∧
  (∀ prompt e w',
     buildPrompt JSON_stringify_indented node
       (prepareDependencyInputs node ctx) (input ctx) = Normal prompt →
     invokeSubagent (routed_agent (routing node)) (routed_model (routing node))
       prompt (prepareDependencyInputs node ctx) (Date_now w).2
       = (Throw e, w') →
     success r = false ∧ error r = Some (error_text e)) ∧
  (∀ prompt out w' e,
     buildPrompt JSON_stringify_indented node
       (prepareDependencyInputs node ctx) (input ctx) = Normal prompt →
     invokeSubagent (routed_agent (routing node)) (routed_model (routing node))
       prompt (prepareDependencyInputs node ctx) (Date_now w).2
       = (Normal out, w') →
     JSON_stringify out = Throw e →
     success r = false ∧ error r = Some (error_text e)) ∧
  (success r = false →
   node_output r = JNull ∧ tokensUsed (metrics r) = None ∧
   ∃ text, error r = Some text).
Proof.
  cbv zeta. unfold executeNode, attemptNode, estimateTokens.
  destruct (Date_now w) as [t w1]; simpl.
  destruct (buildPrompt _ _ _ _) as [prompt|e] eqn:Hp.
  2:{ destruct (Date_now w1). simpl. split_and!; try done.
      - by intros; simplify_eq.
      - by eauto. }
  destruct (invokeSubagent _ _ _ _ _) as [[out|e] w2] eqn:Hcall.
  2:{ destruct (Date_now w2). simpl. split_and!; try done.
      - intros ? ? ? ? [= <-]. by rewrite Hcall.
      - intros ? ? ? [= <-]. rewrite Hcall. by intros [= <- <-].
      - intros ? ? ? ? [= <-]. by rewrite Hcall.
      - by eauto. }
  destruct (Date_now w2) as [t2 w3].
  destruct (JSON_stringify out) as [[text|]|e] eqn:Hs.
  - simpl. split_and!; try done.
    + intros ? ? ? ? [= <-]. rewrite Hcall. intros [= <- <-].
      rewrite Hs. by intros [= <-].
    + intros _. by exists prompt, out, w2, text.
    + intros ? ? ? [= <-]. by rewrite Hcall.
    + intros ? ? ? ? [= <-]. rewrite Hcall. intros [= <- <-].
      by rewrite Hs.
  - destruct (Date_now w3). simpl. split_and!; try done.
    + intros ? ? ? ? [= <-]. rewrite Hcall. intros [= <- <-].
      by rewrite Hs.
    + intros ? ? ? [= <-]. by rewrite Hcall.
    + intros ? ? ? ? [= <-]. rewrite Hcall. intros [= <- <-].
      by rewrite Hs.
    + by eauto.
  - destruct (Date_now w3). simpl. split_and!; try done.
    + intros ? ? ? ? [= <-]. rewrite Hcall. intros [= <- <-].
      by rewrite Hs.
    + intros ? ? ? [= <-]. by rewrite Hcall.
    + intros ? ? ? ? [= <-]. rewrite Hcall. intros [= <- <-].
      rewrite Hs. by intros [= <-].
    + by eauto.
Qed.

(** X6.  A backend value that [JSON.stringify] maps to [undefined] makes
    the node fail although the backend returned: reading the length of the
    printed value raises a TypeError inside the try block, and its text
    becomes the node's error. *)
Theorem executeNode_undefined_output id node ctx w prompt out w' :
  buildPrompt JSON_stringify_indented node
    (prepareDependencyInputs node ctx) (input ctx) = Normal prompt →
  invokeSubagent (routed_agent (routing node)) (routed_model (routing node))
    prompt (prepareDependencyInputs node ctx) (Date_now w).2
    = (Normal out, w') →
  JSON_stringify out = Normal None →
  let r := (executeNode id node ctx w).1 in
  success r = false ∧ node_output r = JNull ∧
  error r = Some "Cannot read properties of undefined (reading 'length')".
Proof.
  intros Hp Hcall Hs. unfold executeNode, attemptNode, estimateTokens.
  destruct (Date_now w) as [t w1]; simpl in *. rewrite Hp, Hcall.
  destruct (Date_now w') as [t2 w3]. rewrite Hs.
  by destruct (Date_now w3).
Qed.

(** X7.  [executeNode] does not read the outputs of the nodes that ran
    before: in two contexts with the same original input it returns the
    same result and leaves the same world. *)
Theorem executeNode_ignores_outputs id node ctx ctx' w :
  input ctx = input ctx' →
  executeNode id node ctx w = executeNode id node ctx' w.
Proof.
  intros Hin. unfold executeNode, attemptNode.
  by rewrite !prepareDependencyInputs_empty, Hin.
Qed.

(** X8.  [execute] throws exactly what [topologicalSort] throws, after one
    reading of the clock and before any backend call; when the sort
    returns, [execute] returns a result whose node count is the length of
    the order; the bound on the recursion is never met. *)
Theorem execute_throws_iff graph input w :
  (∀ e, topologicalSort graph = Thrown e →
        execute graph input w = (Thrown e, (Date_now w).2)) ∧
  (∀ sort, topologicalSort graph = Done sort →
           ∃ res w', execute graph input w = (Done res, w') ∧
                     nodeCount (graph_metrics res) = length (sorted sort)) ∧
  (∀ w', execute graph input w ≠ (OutOfFuel, w')).
Proof.
  split_and!.
  - intros e He. unfold execute, run_graph.
    destruct (Date_now w) as [t w1]. by rewrite He.
  - intros sort Hsort.
    destruct (run_graph_total fl JSON_stringify JSON_stringify_indented
                Date_now invokeSubagent graph input w sort Hsort)
      as (s & w1 & Hrun).
    destruct (execute_Done _ _ _ _ _ _ _ _ _ _ _ _ Hrun) as (out & _ & Hex).
    eexists _, _. split; [done|]. done.
  - intros w' Hex. unfold execute in Hex.
    destruct (run_graph graph input w) as [[[[t0 ids] s]| |] w1] eqn:Hrun.
    + destruct (execute_Done _ _ _ _ _ _ _ _ _ _ _ _ Hrun)
        as (out & _ & Hex').
      unfold execute in Hex'. rewrite Hrun in Hex'. congruence.
    + done.
    + unfold run_graph in Hrun. destruct (Date_now w) as [t w2].
      pose proof (topologicalSort_terminates graph).
      destruct (topologicalSort graph); [|done..].
      by destruct (run_nodes _ _ _ _) as [[?|?] ?].
Qed.




(** X12.  With a declared entry that is a key of the node map, in a run
    none of whose assignments is under the key [__proto__], the entry is
    the last node of the order and the output of the run is read under
    its output key: after a run without failure it is the entry node's own
    output, [null] when that is falsy, whatever the other nodes produced;
    in any run it is the truthy value stored under the key, and [null]
    when no completed node declares the key (the key not being the name of
    a member of [Object.prototype]). *)
Theorem output_read_from_entry graph input w t0 ids s w1 e node :
  run_graph graph input w = (Done (t0, ids, s), w1) →
  ordinary_keys graph ids →
  entry graph = Some e → e ≠ EmptyString →
  get e (nodes graph) = Some node →
  ∃ res w2,
    execute graph input w = (Done res, w2) ∧
    last ids = Some e ∧
    (graph_success res = true →
     ∃ r, get e (nodeResults res) = Some r ∧ success r = true ∧
          graph_output res =
            if truthy (node_output r) then node_output r else JNull) ∧
    (∀ v, get (output node) (outputs (context s)) = Some v →
          graph_output res = if truthy v then v else JNull) ∧
    ((∀ id node', id ∈ completed s → get id (nodes graph) = Some node' →
                  output node' ≠ output node) →
     output node ∉ Object_prototype_names →
     graph_output res = JNull).
Proof.
  intros Hrun _ He Hne Hget.
  assert (last ids = Some e) as Hlast.
  { destruct (run_graph_Done _ _ _ _ _ _ _ _ _ _ _ _ Hrun)
      as (sort & Hsort & -> & _ & _).
    by eapply declared_entry_last. }
  destruct (final_output_facts _ _ _ _ _ _ _ _ _ _ _ _ _ _ Hrun Hlast Hget)
    as (res & w2 & Hex & Hres & Hsuccess & Hsome & Hnone & Hlastr & Habsent).
  exists res, w2. rewrite Hres, Hsuccess, bool_decide_eq_true.
  split_and!; try done.
  - intros Hf%nil_length_inv.
    destruct (Hlastr Hf) as (r & Hr & Hs & Hstored).
    exists r. split_and!; [done..|]. by apply Hsome.
  - intros Hnobody Hproto. rewrite (Hnone (Habsent Hnobody)).
    by rewrite decide_False.
Qed.

(** X20.  A declared entry that is not a key of the node map but the name
    of a member of [Object.prototype] (such as toString; [__proto__]
    apart, which is never assigned as a property) is not rejected:
    the order is that name alone and every node is named in the warning;
    the run then fails on it before any backend call, because the member
    has no task, and returns a result with this one failure and the output
    [null]. *)
Theorem inherited_entry_fails graph input w e :
  entry graph = Some e →
  e ∈ Object_prototype_names → e ≠ "__proto__" →
  get e (nodes graph) = None →
  topologicalSort graph
    = Done {| sorted := [e];
              warned_unreachable := Object_keys (nodes graph) |} ∧
  ∃ res r,
    execute graph input w
      = (Done res, (Date_now (Date_now (Date_now (Date_now w).2).2).2).2) ∧
    graph_success res = false ∧
    graph_output res = JNull ∧
    nodeResults res = [(e, r)] ∧
    success r = false ∧
    error r
      = Some "Cannot read properties of undefined (reading 'toLowerCase')" ∧
    nodeCount (graph_metrics res) = 1 ∧
    successCount (graph_metrics res) = 0 ∧
    failureCount (graph_metrics res) = 1.
Proof.
  intros He Hproto _ Hnone.
  assert (e ≠ EmptyString) as Hne.
  { intros ->. vm_compute in Hproto. set_solver. }
  assert (read e (nodes graph) = Inherited) as Hread
    by by apply read_Inherited.
  assert (topologicalSort graph
          = Done {| sorted := [e];
                    warned_unreachable := Object_keys (nodes graph) |})
    as Hsort.
  { unfold topologicalSort, entryNodes. rewrite He.
    rewrite decide_False by done. simpl.
    rewrite decide_False by set_solver. rewrite Hread. simpl. do 2 f_equal.
    apply get_None_key in Hnone.
    induction (Object_keys (nodes graph)) as [|k l IH]; [done|].
    rewrite filter_cons_True by set_solver. f_equal. apply IH. set_solver. }
  split; [done|].
  unfold execute, run_graph. destruct (Date_now w) as [t0 w1]. simpl.
  rewrite Hsort. simpl. rewrite Hread. unfold executeNode_inherited.
  destruct (Date_now w1) as [t1 w2]. simpl.
  destruct (Date_now w2) as [t2 w3]. simpl.
  unfold compile_result. destruct (Date_now w3) as [t3 w4]. simpl.
  unfold extractFinalOutput. simpl. rewrite Hread.
  eexists _, _. split; [done|]. by split_and!.
Qed.
End RunMore.

(** A backend that answers [undefined]. *)
Lemma executeNode_undefined_output_witness :
  success (executeNode no_rounding sample_stringify sample_stringify tick
             (backend_returning JUndefined) "plan" planNode
             contextAfterScan 0%nat).1 = false ∧
  node_output (executeNode no_rounding sample_stringify sample_stringify tick
                 (backend_returning JUndefined) "plan" planNode
                 contextAfterScan 0%nat).1 = JNull ∧
  error (executeNode no_rounding sample_stringify sample_stringify tick
           (backend_returning JUndefined) "plan" planNode
           contextAfterScan 0%nat).1
    = Some "Cannot read properties of undefined (reading 'length')".
Proof.
  eapply (executeNode_undefined_output no_rounding sample_stringify
            sample_stringify tick (backend_returning JUndefined)
            "plan" planNode contextAfterScan 0%nat).
  - vm_compute. reflexivity.
  - reflexivity.
  - reflexivity.
Defined.

(** The node plan runs alike before and after scan has stored "tree". *)
Lemma executeNode_ignores_outputs_witness :
  executeNode no_rounding sample_stringify sample_stringify tick
    simulated_invokeSubagent "plan" planNode
    (context (initial_state JNull 0)) 0%nat
  = executeNode no_rounding sample_stringify sample_stringify tick
      simulated_invokeSubagent "plan" planNode contextAfterScan 0%nat.
Proof.
  apply (executeNode_ignores_outputs no_rounding sample_stringify
           sample_stringify tick simulated_invokeSubagent "plan" planNode
           (context (initial_state JNull 0)) contextAfterScan 0%nat).
  reflexivity.
Defined.


(** The entry toString on a graph of one node. *)
Lemma inherited_entry_fails_witness :
  topologicalSort inheritedEntryGraph
    = Done {| sorted := ["toString"]; warned_unreachable := ["a"] |} ∧
  ∃ res r,
    sample_execute simulated_invokeSubagent inheritedEntryGraph JNull 0%nat
      = (Done res, 4%nat) ∧
    graph_success res = false ∧
    graph_output res = JNull ∧
    nodeResults res = [("toString", r)] ∧
    success r = false ∧
    error r
      = Some "Cannot read properties of undefined (reading 'toLowerCase')" ∧
    nodeCount (graph_metrics res) = 1 ∧
    successCount (graph_metrics res) = 0 ∧
    failureCount (graph_metrics res) = 1.
Proof.
  apply (inherited_entry_fails no_rounding sample_stringify sample_stringify
           tick simulated_invokeSubagent inheritedEntryGraph JNull 0%nat
           "toString").
  - reflexivity.
  - vm_compute. set_solver.
  - done.
  - reflexivity.
Defined.



Lemma output_read_from_entry_witness :
  ∃ res w2,
    sample_execute simulated_invokeSubagent chainGraph JNull 0%nat
      = (Done res, w2) ∧
    last ["A"; "B"; "C"] = Some "C" ∧
    (graph_success res = true →
     ∃ r, get "C" (nodeResults res) = Some r ∧ success r = true ∧
          graph_output res =
            if truthy (node_output r) then node_output r else JNull) ∧
    (∀ v, get "c" (outputs (context chain_simulated_state)) = Some v →
          graph_output res = if truthy v then v else JNull) ∧
    ((∀ id node',
        id ∈ completedNodes (metadata (context chain_simulated_state)) →
        get id (nodes chainGraph) = Some node' →
        output node' ≠ "c") →
     "c" ∉ Object_prototype_names →
     graph_output res = JNull).
Proof.
  eapply (output_read_from_entry no_rounding sample_stringify sample_stringify
            tick simulated_invokeSubagent chainGraph JNull 0%nat 0%Z
            ["A"; "B"; "C"] chain_simulated_state _ "C"
            (mkNode general_purpose "third" (Some ["B"]) "c")).
  - vm_compute. reflexivity.
  - apply chainGraph_ordinary_keys.
  - reflexivity.
  - done.
  - reflexivity.
Defined.

(** ** Prompts, and the simulated backend *)

Lemma append_assoc (a b c : string) : (a ++ b) ++ c = a ++ (b ++ c).
Proof.
  induction a as [|x a IH]; [done|].
  unfold String.append; fold String.append. by rewrite IH.
Qed.

Lemma append_nil_r (a : string) : a ++ EmptyString = a.
Proof.
  induction a as [|x a IH]; [done|].
  unfold String.append; fold String.append. by rewrite IH.
Qed.

Section PromptFacts.
Variable JSON_stringify_indented : JsValue → Completion (option string).

Abbreviation buildPrompt := (buildPrompt JSON_stringify_indented).
Abbreviation dependency_sections :=
  (dependency_sections JSON_stringify_indented).

Lemma dependency_sections_Normal : ∀ entries prompt prompt',
  dependency_sections entries prompt = Normal prompt' →
  ∃ added, prompt' = prompt ++ added.
Proof.
  induction entries as [|[d v] entries IH]; intros prompt prompt' H;
    simpl in H.
  - simplify_eq. exists EmptyString. by rewrite append_nil_r.
  - destruct (JSON_stringify_indented v) as [text|]; [|done].
    apply IH in H as [added ->].
    exists ((nl ++ d ++ ":" ++ nl ++ interpolate text ++ nl) ++ added).
    by rewrite !append_assoc.
Qed.

Lemma dependency_sections_Throw : ∀ entries prompt e,
  dependency_sections entries prompt = Throw e →
  ∃ d v, (d, v) ∈ entries ∧ JSON_stringify_indented v = Throw e.
Proof.
  induction entries as [|[d v] entries IH]; intros prompt e H;
    simpl in H; [done|].
  destruct (JSON_stringify_indented v) as [text|e'] eqn:Hv.
  - apply IH in H as (d' & v' & Hin & Hv'). exists d', v'.
    split; [by right|done].
  - simplify_eq. exists d, v. split; [left|done].
Qed.

(** X13.  A prompt that [buildPrompt] returns starts with the task line
    and ends with the four fixed instructions; for a falsy input and no
    dependency inputs it is these two parts and nothing else; and
    [buildPrompt] throws only what the indented [JSON.stringify] throws on
    the truthy input or on a dependency input. *)
Theorem buildPrompt_shape :
  (∀ node inputs input prompt,
     buildPrompt node inputs input = Normal prompt →
     ∃ middle,
       prompt = ("Task: " ++ task node ++ nl ++ nl) ++ middle
                ++ instructions) ∧
  (∀ node input,
     truthy input = false →
     buildPrompt node [] input
       = Normal (("Task: " ++ task node ++ nl ++ nl) ++ instructions)) ∧
  (∀ node inputs input e,
     buildPrompt node inputs input = Throw e →
     (truthy input = true ∧ JSON_stringify_indented input = Throw e) ∨
     ∃ d v, (d, v) ∈ inputs ∧ JSON_stringify_indented v = Throw e).
Proof.
  split_and!.
  - intros node inputs input prompt H. unfold buildPrompt in H.
    destruct (truthy input).
    + destruct (JSON_stringify_indented input) as [text|]; [|done].
      case_bool_decide.
      * destruct (dependency_sections _ _) as [p|] eqn:Hd; [|done].
        apply dependency_sections_Normal in Hd as [added ->].
        simplify_eq.
        exists (("Original Input:" ++ nl ++ interpolate text ++ nl ++ nl)
                ++ ("Context from Dependencies:" ++ nl) ++ added ++ nl).
        by rewrite !append_assoc.
      * simplify_eq.
        exists ("Original Input:" ++ nl ++ interpolate text ++ nl ++ nl).
        by rewrite !append_assoc.
    + case_bool_decide.
      * destruct (dependency_sections _ _) as [p|] eqn:Hd; [|done].
        apply dependency_sections_Normal in Hd as [added ->].
        simplify_eq.
        exists (("Context from Dependencies:" ++ nl) ++ added ++ nl).
        by rewrite !append_assoc.
      * simplify_eq. by exists EmptyString.
  - intros node input Hfalsy. unfold buildPrompt.
    rewrite Hfalsy. by rewrite bool_decide_false by (simpl; lia).
  - intros node inputs input e H. unfold buildPrompt in H.
    destruct (truthy input).
    + destruct (JSON_stringify_indented input) as [text|e'] eqn:Hin;
        [|simplify_eq; by left].
      case_bool_decide; [|done].
      destruct (dependency_sections _ _) as [p|e'] eqn:Hd; [done|].
      simplify_eq. right. by eapply dependency_sections_Throw.
    + case_bool_decide; [|done].
      destruct (dependency_sections _ _) as [p|e'] eqn:Hd; [done|].
      simplify_eq. right. by eapply dependency_sections_Throw.
Qed.
End PromptFacts.

Section SimulatedRuns.
Variable fl : Qc → Qc.
Variable JSON_stringify : JsValue → Completion (option string).
Variable JSON_stringify_indented : JsValue → Completion (option string).
Context {World : Type}.
Variable Date_now : World → Z * World.

Abbreviation executeNode :=
  (executeNode fl JSON_stringify JSON_stringify_indented Date_now
               simulated_invokeSubagent).
Abbreviation run_nodes :=
  (run_nodes fl JSON_stringify JSON_stringify_indented Date_now
             simulated_invokeSubagent).
Abbreviation run_graph :=
  (run_graph fl JSON_stringify JSON_stringify_indented Date_now
             simulated_invokeSubagent).
Abbreviation execute :=
  (execute fl JSON_stringify JSON_stringify_indented Date_now
           simulated_invokeSubagent).
Abbreviation completed s := (completedNodes (metadata (context s))).
Abbreviation failed s := (failedNodes (metadata (context s))).

(** The stringifier returns on the input of the run, and turns an object
    into a string. *)
Variable runInput : JsValue.
Hypothesis input_printable :
  truthy runInput = false ∨
  ∃ text, JSON_stringify_indented runInput = Normal text.
Hypothesis objects_printable :
  ∀ props, ∃ text, JSON_stringify (JObj props) = Normal (Some text).

Lemma executeNode_simulated id node ctx (w : World) :
  input ctx = runInput →
  let r := (executeNode id node ctx w).1 in
  let routing :=
    selectModel fl node
      {| fileCount := None;
         complexity := Some (estimateComplexity (task node)) |} in
  success r = true ∧
  node_output r =
    JObj [("agent", JStr (agent_name (agent node)));
          ("model", JStr (model_name (routed_model routing)));
          ("result", JStr ("Simulated output from " ++ agent_name (agent node)
                           ++ "/" ++ model_name (routed_model routing)));
          ("contextUsed", JNum 0)].
Proof.
  intros Hin. cbv zeta.
  unfold executeNode, attemptNode, estimateTokens.
  destruct (Date_now w) as [t w1].
  rewrite prepareDependencyInputs_empty, Hin.
  assert (∃ prompt, buildPrompt JSON_stringify_indented node [] runInput
                    = Normal prompt) as [prompt ->].
  { unfold buildPrompt. destruct input_printable as [->|[text Ht]].
    - rewrite bool_decide_false by (simpl; lia). by eexists.
    - destruct (truthy runInput); [rewrite Ht|];
        rewrite bool_decide_false by (simpl; lia); by eexists. }
  unfold simulated_invokeSubagent. cbn beta iota.
  destruct (Date_now w1) as [t2 w2].
  match goal with
  | |- context [JSON_stringify (JObj ?props)] =>
      destruct (objects_printable props) as [text ->]
  end.
  cbn [fst success node_output]. split; [done|].
  unfold selectModel. by destruct (model node).
Qed.

Lemma run_nodes_simulated graph : ∀ ids s (w : World),
  input (context s) = runInput →
  (∀ id, id ∈ ids → is_Some (get id (nodes graph))) →
  ∃ s' w', run_nodes graph ids s w = (Normal s', w') ∧
           failed s' = failed s ∧
           completed s' = (completed s ++ ids)%list.
Proof.
  induction ids as [|id ids IH]; intros s w Hin Hpresent; simpl.
  - exists s, w. by rewrite app_nil_r.
  - destruct (Hpresent id) as [node Hget]; [left|].
    apply read_Own in Hget. rewrite Hget.
    pose proof (executeNode_simulated id node (context s) w Hin) as [Hs _].
    pose proof (executeNode_nodeId fl JSON_stringify JSON_stringify_indented
                  Date_now simulated_invokeSubagent id node (context s) w)
      as Hid.
    destruct (executeNode id node (context s) w) as [r w1].
    simpl in Hs, Hid. rewrite Hs.
    destruct (IH (record_success node r s) w1) as (s' & w' & -> & Hf & Hc);
      [done|by intros; apply Hpresent; right|].
    exists s', w'. split; [done|]. split; [done|].
    rewrite Hc. simpl. by rewrite Hid, <- app_assoc.
Qed.

(** X14.  With the simulated [invokeSubagent] of the source, a run whose
    sort returns, and none of whose assignments is under the key
    [__proto__], succeeds exactly when every id of the order is a key of
    the node map (an id that names a member of [Object.prototype] fails
    when it is executed); every node of the order then gets a result, in
    that order, and none fails.  The stringifier is assumed to return on
    the input and to print objects. *)
Theorem simulated_run_succeeds graph (w : World) sort :
  topologicalSort graph = Done sort →
  ordinary_keys graph (sorted sort) →
  ∃ res w',
    execute graph runInput w = (Done res, w') ∧
    (graph_success res = true ↔
     ∀ id, id ∈ sorted sort → is_Some (get id (nodes graph))) ∧
    (graph_success res = true →
     Object_keys (nodeResults res) = sorted sort ∧
     successCount (graph_metrics res) = length (sorted sort) ∧
     failureCount (graph_metrics res) = 0).
Proof.
  intros Hsort _.
  destruct (run_graph_total fl JSON_stringify JSON_stringify_indented
              Date_now simulated_invokeSubagent graph runInput w sort Hsort)
    as (s & w1 & Hrun).
  destruct (execute_Done _ _ _ _ _ _ _ _ _ _ _ _ Hrun) as (out & _ & Hex).
  destruct (run_graph_invariant _ _ _ _ _ _ _ _ _ _ _ _ Hrun)
    as (_ & _ & Hkeys & _).
  apply run_graph_Done in Hrun as (sort' & Hsort' & _ & _ & Hrun).
  eexists _, _. split; [done|]. simpl. rewrite bool_decide_eq_true.
  assert ((∀ id, id ∈ sorted sort → is_Some (get id (nodes graph))) →
          failed s = [] ∧ completed s = sorted sort) as Hgood.
  { intros Hown.
    destruct (run_nodes_simulated graph (sorted sort)
                (initial_state runInput (Date_now w).1) (Date_now w).2)
      as (s' & w' & Hrun' & Hf & Hc); [done|done|].
    rewrite Hrun' in Hrun. by simplify_eq. }
  assert (length (failed s) = 0 →
          ∀ id, id ∈ sorted sort → is_Some (get id (nodes graph))) as Hown.
  { intros Hf%nil_length_inv id Hid.
    pose proof (run_nodes_completed_own _ _ _ _ _ _ _ _ _ _ _ Hrun id) as Hc.
    apply run_nodes_cut in Hrun
      as [[_ Hcs]|(pre & n & post & _ & Hf' & _)]; simpl in *.
    2:{ rewrite Hf in Hf'. done. }
    rewrite Hcs in Hc. destruct (Hc Hid) as [Hin|Hsome]; [|done].
    by apply not_elem_of_nil in Hin. }
  split.
  - split; [done|]. intros Hall. by destruct (Hgood Hall) as [-> _].
  - intros Hlen. destruct (Hgood (Hown Hlen)) as [Hf Hc].
    by rewrite Hkeys, Hf, Hc, app_nil_r.
Qed.
End SimulatedRuns.

(** X15.  [runExample]: of the three nodes of [repoSummaryGraph] only the
    declared entry scan_structure is ordered and executed, the other two
    are named in the warning; the run succeeds with one node result, and
    its output is the simulated answer of explore on haiku. *)
Theorem runExample_executes_one_node
    (fl : Qc → Qc)
    (JSON_stringify JSON_stringify_indented :
       JsValue → Completion (option string))
    {World : Type} (Date_now : World → Z * World) (w : World) :
  (∃ text, JSON_stringify_indented exampleInput = Normal text) →
  (∀ props, ∃ text, JSON_stringify (JObj props) = Normal (Some text)) →
  topologicalSort repoSummaryGraph
    = Done {| sorted := ["scan_structure"];
              warned_unreachable :=
                ["analyze_architecture"; "generate_summary"] |} ∧
  ∃ res w',
    execute fl JSON_stringify JSON_stringify_indented Date_now
      simulated_invokeSubagent repoSummaryGraph exampleInput w
      = (Done res, w') ∧
    graph_success res = true ∧
    Object_keys (nodeResults res) = ["scan_structure"] ∧
    nodeCount (graph_metrics res) = 1 ∧
    graph_output res =
      JObj [("agent", JStr "explore");
            ("model", JStr "haiku");
            ("result", JStr "Simulated output from explore/haiku");
            ("contextUsed", JNum 0)].
Proof.
  intros Hinput Hobj.
  assert (topologicalSort repoSummaryGraph
          = Done {| sorted := ["scan_structure"];
                    warned_unreachable :=
                      ["analyze_architecture"; "generate_summary"] |})
    as Hsort by (vm_compute; reflexivity).
  split; [done|].
  assert (read "scan_structure" (nodes repoSummaryGraph)
          = Own scanStructureNode) as Hget by reflexivity.
  unfold execute, run_graph. destruct (Date_now w) as [t0 w1].
  rewrite Hsort. cbn [sorted run_nodes]. rewrite Hget.
  pose proof (executeNode_simulated fl JSON_stringify JSON_stringify_indented
                Date_now exampleInput (or_intror Hinput) Hobj
                "scan_structure" scanStructureNode
                (context (initial_state exampleInput t0)) w1 eq_refl)
    as [Hs Hout].
  pose proof (executeNode_nodeId fl JSON_stringify JSON_stringify_indented
                Date_now simulated_invokeSubagent "scan_structure"
                scanStructureNode (context (initial_state exampleInput t0)) w1)
    as Hid.
  destruct (executeNode _ _ _ _ _ _ _ _ _) as [r w2].
  simpl in Hs, Hout, Hid. rewrite Hs.
  unfold compile_result. destruct (Date_now w2) as [t1 w3].
  unfold extractFinalOutput. cbn [last]. rewrite Hget.
  eexists _, _. split; [done|]. simpl. rewrite Hid, Hout.
  by split_and!.
Qed.

Lemma runExample_executes_one_node_witness :
  topologicalSort repoSummaryGraph
    = Done {| sorted := ["scan_structure"];
              warned_unreachable :=
                ["analyze_architecture"; "generate_summary"] |} ∧
  ∃ res w',
    execute no_rounding sample_stringify sample_stringify tick
      simulated_invokeSubagent repoSummaryGraph exampleInput 0%nat
      = (Done res, w') ∧
    graph_success res = true ∧
    Object_keys (nodeResults res) = ["scan_structure"] ∧
    nodeCount (graph_metrics res) = 1 ∧
    graph_output res =
      JObj [("agent", JStr "explore");
            ("model", JStr "haiku");
            ("result", JStr "Simulated output from explore/haiku");
            ("contextUsed", JNum 0)].
Proof.
  apply (runExample_executes_one_node no_rounding sample_stringify
           sample_stringify tick 0%nat).
  - by eexists.
  - intros props. by eexists.
Defined.

Lemma simulated_run_succeeds_witness :
  ∃ res w',
    execute no_rounding sample_stringify sample_stringify tick
      simulated_invokeSubagent chainGraph JNull 0%nat = (Done res, w') ∧
    (graph_success res = true ↔
     ∀ id, id ∈ ["A"; "B"; "C"] → is_Some (get id (nodes chainGraph))) ∧
    (graph_success res = true →
     Object_keys (nodeResults res) = ["A"; "B"; "C"] ∧
     successCount (graph_metrics res) = length ["A"; "B"; "C"] ∧
     failureCount (graph_metrics res) = 0).
Proof.
  apply (simulated_run_succeeds no_rounding sample_stringify sample_stringify
           tick JNull (or_introl eq_refl) (λ props, ex_intro _ _ eq_refl)
           chainGraph 0%nat
           {| sorted := ["A"; "B"; "C"]; warned_unreachable := [] |}).
  - vm_compute. reflexivity.
  - apply chainGraph_ordinary_keys.
Defined.

(** ** Routing in a run *)

Lemma prefix_app_l (a b s : string) :
  String.prefix (a ++ b) s = true → String.prefix a s = true.
Proof.
  revert s. induction a as [|c a IH]; intros s H; [by destruct s|].
  destruct s as [|c' s]; [done|]. simpl in *.
  destruct (Ascii.ascii_dec c c'); [by apply IH|done].
Qed.

Lemma includes_unfold (s sub : string) :
  includes s sub =
    String.prefix sub s ||
    match s with
    | EmptyString => false
    | String _ s' => includes s' sub
    end.
Proof. by destruct s. Qed.

Lemma includes_app_l (s a b : string) :
  includes s (a ++ b) = true → includes s a = true.
Proof.
  induction s as [|c s IH]; intros H.
  - rewrite includes_unfold in H. rewrite includes_unfold.
    apply orb_true_iff in H as [H|H]; [|done].
    apply prefix_app_l in H. by rewrite H.
  - rewrite (includes_unfold (String c s)) in H.
    rewrite (includes_unfold (String c s)).
    apply orb_true_iff in H as [H|H].
    + apply prefix_app_l in H. by rewrite H.
    + rewrite IH by done. by rewrite orb_true_r.
Qed.

Lemma prefix_app_includes (a b s : string) :
  String.prefix (a ++ b) s = true → includes s b = true.
Proof.
  revert s. induction a as [|c a IH]; intros s H.
  - change (String.prefix b s = true) in H.
    rewrite includes_unfold. by rewrite H.
  - destruct s as [|c' s]; [done|]. simpl in H.
    destruct (Ascii.ascii_dec c c'); [|done].
    apply IH in H. rewrite includes_unfold, H. by rewrite orb_true_r.
Qed.

Lemma includes_app_r (s a b : string) :
  includes s (a ++ b) = true → includes s b = true.
Proof.
  induction s as [|c s IH]; intros H.
  - rewrite includes_unfold in H.
    apply orb_true_iff in H as [H|H]; [|done].
    by apply prefix_app_includes in H.
  - rewrite (includes_unfold (String c s)) in H.
    apply orb_true_iff in H as [H|H].
    + by apply prefix_app_includes in H.
    + rewrite (includes_unfold (String c s)), IH by done.
      by rewrite orb_true_r.
Qed.

Lemma selectModelByHeuristics_not_opus node ctx :
  selectModelByHeuristics node ctx ≠ opus.
Proof.
  unfold selectModelByHeuristics.
  repeat match goal with |- context [if ?b then _ else _] => destruct b end;
    try done.
  by destruct (agent node).
Qed.

(** X16.  The heuristics never choose opus: a decision names opus exactly
    when the node itself asks for it. *)
Theorem opus_only_by_override fl node ctx :
  routed_model (selectModel fl node ctx) = opus ↔ model node = Some opus.
Proof.
  unfold selectModel. destruct (model node) as [m|]; simpl.
  - split; [by intros ->|by intros [= ->]].
  - split; [|done]. intros H. by apply selectModelByHeuristics_not_opus in H.
Qed.

(** X17.  For a node without a model of its own, the decision in a run is
    haiku when the lowered task holds an exploration keyword, else sonnet
    when it holds an analysis or generation keyword or the phrase
    "deep analysis", else the default of the agent.  The complexity
    estimate so reaches the decision only through "deep analysis": the
    other phrases of [estimateComplexity] contain a keyword that the router
    reads before.  The reasoning is one of three fixed texts. *)
Theorem routing_of_a_node fl node :
  model node = None →
  let t := toLowerCase (task node) in
  routed_agent (node_routing fl node) = agent node ∧
  routed_model (node_routing fl node) =
    (if any_includes t ["scan"; "explore"; "find"; "identify"; "count"; "list"]
     then haiku
     else if any_includes t
               ["analyze"; "understand"; "architecture"; "design"; "pattern";
                "generate"; "create"; "write"; "compile"; "deep analysis"]
     then sonnet
     else DEFAULT_MODELS (agent node)) ∧
  reasoning (node_routing fl node) ∈
    ["Optimized for fast, cost-effective execution";
     "Requires sophisticated reasoning and analysis";
     "Requires sophisticated reasoning and analysis; High complexity task needs advanced capabilities"].
Proof.
  intros Hm t. unfold node_routing, selectModel. rewrite Hm.
  cbn [routed_agent routed_model reasoning]. split; [done|].
  assert (∀ m, explainSelection node
                 {| fileCount := None;
                    complexity := Some (estimateComplexity (task node)) |} m
               ∈ ["Optimized for fast, cost-effective execution";
                  "Requires sophisticated reasoning and analysis";
                  "Requires sophisticated reasoning and analysis; High complexity task needs advanced capabilities"]
               ∨ m = opus) as Hreason.
  { intros [| |]; [left|left|by right]; unfold explainSelection; simpl.
    - set_solver.
    - destruct (estimateComplexity (task node)); simpl; set_solver. }
  split.
  2:{ destruct (Hreason (selectModelByHeuristics node
        {| fileCount := None;
           complexity := Some (estimateComplexity (task node)) |}))
        as [H|H]; [done|].
      by apply selectModelByHeuristics_not_opus in H. }
  unfold selectModelByHeuristics. fold t.
  cbn [large_file_count fileCount complexity].
  destruct (any_includes t ["scan"; "explore"; "find"; "identify"; "count";
                            "list"]); [done|].
  unfold any_includes. cbn [existsb].
  pose proof (includes_app_l t "analyze" " architecture") as H1.
  pose proof (includes_app_r t "complex " "pattern") as H2.
  change ("analyze" ++ " architecture") with "analyze architecture" in H1.
  change ("complex " ++ "pattern") with "complex pattern" in H2.
  unfold estimateComplexity. fold t.
  destruct (includes t "analyze"); [done|].
  destruct (includes t "understand"); [done|].
  destruct (includes t "architecture"); [done|].
  destruct (includes t "design"); [done|].
  destruct (includes t "pattern"); [done|].
  destruct (includes t "generate"); [done|].
  destruct (includes t "create"); [done|].
  destruct (includes t "write"); [done|].
  destruct (includes t "compile"); [done|].
  destruct (includes t "analyze architecture"); [by discriminate H1|].
  destruct (includes t "complex pattern"); [by discriminate H2|].
  destruct (includes t "deep analysis"); [done|]. simpl.
  by destruct (_ || _).
Qed.

Lemma routing_of_a_node_witness :
  routed_agent (node_routing no_rounding deepAnalysisNode) = explore ∧
  routed_model (node_routing no_rounding deepAnalysisNode) = sonnet ∧
  reasoning (node_routing no_rounding deepAnalysisNode) ∈
    ["Optimized for fast, cost-effective execution";
     "Requires sophisticated reasoning and analysis";
     "Requires sophisticated reasoning and analysis; High complexity task needs advanced capabilities"].
Proof. apply (routing_of_a_node no_rounding deepAnalysisNode). reflexivity. Defined.

(** ** Cost comparison *)

Lemma Math_max_comm (x y : Qc) : Math_max x y = Math_max y x.
Proof.
  unfold Math_max.
  destruct (Qclt_le_dec x y) as [Hxy|Hxy], (Qclt_le_dec y x) as [Hyx|Hyx];
    try done.
  - apply Qclt_le_weak in Hyx. by apply Qclt_not_le in Hxy.
  - by apply Qcle_antisym.
Qed.

Lemma Math_max_l (x y : Qc) : (x ≤ Math_max x y)%Qc.
Proof.
  unfold Math_max. destruct (Qclt_le_dec x y); [by apply Qclt_le_weak|].
  apply Qcle_refl.
Qed.

Lemma Math_max_r (x y : Qc) : (y ≤ Math_max x y)%Qc.
Proof. rewrite Math_max_comm. apply Math_max_l. Qed.

Lemma Math_max_zero (x y : Qc) :
  (0 ≤ x)%Qc → (0 ≤ y)%Qc →
  Math_max x y = 0%Qc ↔ x = 0%Qc ∧ y = 0%Qc.
Proof.
  intros Hx Hy. split.
  - intros H. pose proof (Math_max_l x y) as Hl.
    pose proof (Math_max_r x y) as Hr. rewrite H in Hl, Hr.
    split; by apply Qcle_antisym.
  - intros [-> ->]. unfold Math_max. by destruct (Qclt_le_dec _ _).
Qed.

Lemma Math_abs_zero : Math_abs 0%Qc = 0%Qc.
Proof. apply Qcabs_pos, Qcle_refl. Qed.

Section CompareCostFacts.
Variable fl : Qc → Qc.
Hypothesis fl_odd : ∀ x, fl (- x)%Qc = (- fl x)%Qc.

Lemma fl_zero_of_odd : fl 0%Qc = 0%Qc.
Proof.
  pose proof (fl_odd 0%Qc) as H.
  replace (- 0)%Qc with 0%Qc in H by ring.
  destruct (Qclt_le_dec (fl 0%Qc) 0%Qc) as [Hlt|Hle].
  - apply Qclt_le_weak in Hlt. apply Qcle_antisym; [done|].
    apply Qcopp_le_compat in Hlt. rewrite <- H in Hlt.
    by replace (- 0)%Qc with 0%Qc in Hlt by ring.
  - apply Qcle_antisym; [|done].
    apply Qcopp_le_compat in Hle. rewrite <- H in Hle.
    by replace (- 0)%Qc with 0%Qc in Hle by ring.
Qed.

Lemma savings_swap (c1 c2 : Qc) :
  Math_abs (fl (c1 - c2)%Qc) = Math_abs (fl (c2 - c1)%Qc).
Proof.
  unfold Math_abs. replace (c2 - c1)%Qc with (- (c1 - c2))%Qc by ring.
  by rewrite fl_odd, Qcabs_opp.
Qed.

(** X18.  [compareCost] does not depend on the order of the two models,
    apart from the two costs changing places, under a rounding that
    commutes with negation; a model compared with itself saves nothing. *)
Theorem compareCost_symmetric (m1 m2 : ClaudeModel) (i o : Qc) :
  model1Cost (compareCost fl m1 m2 i o) = model2Cost (compareCost fl m2 m1 i o)
  ∧ model2Cost (compareCost fl m1 m2 i o)
    = model1Cost (compareCost fl m2 m1 i o)
  ∧ savings (compareCost fl m1 m2 i o) = savings (compareCost fl m2 m1 i o)
  ∧ savingsPercent (compareCost fl m1 m2 i o)
    = savingsPercent (compareCost fl m2 m1 i o)
  ∧ savings (compareCost fl m1 m1 i o) = 0%Qc
  ∧ savingsPercent (compareCost fl m1 m1 i o)
    = (if decide (estimateCost fl m1 i o = 0%Qc) then None else Some 0%Qc).
Proof.
  unfold compareCost. cbn [model1Cost model2Cost savings savingsPercent].
  split_and!; try done.
  - apply savings_swap.
  - by rewrite (savings_swap (estimateCost fl m1 i o)), Math_max_comm.
  - replace (estimateCost fl m1 i o - estimateCost fl m1 i o)%Qc
      with 0%Qc by ring.
    rewrite fl_zero_of_odd. apply Math_abs_zero.
  - replace (estimateCost fl m1 i o - estimateCost fl m1 i o)%Qc
      with 0%Qc by ring.
    rewrite fl_zero_of_odd. unfold divide.
    assert (Math_max (estimateCost fl m1 i o) (estimateCost fl m1 i o)
            = estimateCost fl m1 i o) as ->.
    { unfold Math_max. by destruct (Qclt_le_dec _ _). }
    case_decide; [done|]. f_equal.
    replace (Math_abs 0 / estimateCost fl m1 i o)%Qc with 0%Qc.
    + rewrite fl_zero_of_odd. replace (0 * Q2Qc 100)%Qc with 0%Qc by ring.
      apply fl_zero_of_odd.
    + unfold Qcdiv. rewrite Math_abs_zero. ring.
Qed.

Hypothesis fl_monotone : ∀ x y, (x ≤ y)%Qc → (fl x ≤ fl y)%Qc.
Hypothesis fl_idempotent : ∀ x, fl (fl x) = fl x.
Hypothesis fl_one : fl 1%Qc = 1%Qc.
Hypothesis fl_hundred : fl (Q2Qc 100) = Q2Qc 100.

Lemma fl_nonneg (x : Qc) : (0 ≤ x)%Qc → (0 ≤ fl x)%Qc.
Proof. intros H. rewrite <- fl_zero_of_odd. by apply fl_monotone. Qed.

Lemma rate_nonneg (m : ClaudeModel) :
  (0 ≤ costPer1MInputTokens (MODEL_CONFIGS fl m))%Qc ∧
  (0 ≤ costPer1MOutputTokens (MODEL_CONFIGS fl m))%Qc.
Proof. destruct m; split; simpl; by apply fl_nonneg. Qed.

Lemma estimateCost_nonneg (m : ClaudeModel) (i o : Qc) :
  (0 ≤ i)%Qc → (0 ≤ o)%Qc → (0 ≤ estimateCost fl m i o)%Qc.
Proof.
  intros Hi Ho. unfold estimateCost. cbv zeta.
  destruct (rate_nonneg m) as [Hin Hout].
  apply fl_nonneg, Qcplus_nonneg_nonneg;
    apply fl_nonneg, Qcmult_nonneg_nonneg; try done;
    by apply scaled_nonneg; [apply fl_monotone|apply fl_zero_of_odd|].
Qed.

Lemma estimateCost_rounded (m : ClaudeModel) (i o : Qc) :
  fl (estimateCost fl m i o) = estimateCost fl m i o.
Proof. unfold estimateCost. cbv zeta. apply fl_idempotent. Qed.

Lemma difference_bounded (c1 c2 : Qc) :
  (0 ≤ c1)%Qc → (0 ≤ c2)%Qc → fl c1 = c1 → fl c2 = c2 →
  (Math_abs (fl (c1 - c2)%Qc) ≤ Math_max c1 c2)%Qc.
Proof.
  intros H1 H2 Hr1 Hr2. unfold Math_abs. apply Qcabs_Qcle_condition. split.
  - apply Qcle_trans with (- c2)%Qc.
    + apply Qcopp_le_compat, Math_max_r.
    + rewrite <- Hr2 at 1. rewrite <- fl_odd. apply fl_monotone.
      apply Qcle_minus_iff. by replace (c1 - c2 + - - c2)%Qc with c1 by ring.
  - apply Qcle_trans with c1; [|apply Math_max_l].
    rewrite <- Hr1 at 2. apply fl_monotone.
    apply Qcle_minus_iff. by replace (c1 + - (c1 - c2))%Qc with c2 by ring.
Qed.

(** X19.  For token counts that are not negative, under a monotone,
    idempotent rounding that commutes with negation and leaves 1 and 100
    alone: the saving is at least zero and at most the larger cost, the
    percentage is a number unless both costs are zero, and then it lies
    between 0 and 100. *)
Theorem compareCost_bounds (m1 m2 : ClaudeModel) (i o : Qc) :
  (0 ≤ i)%Qc → (0 ≤ o)%Qc →
  let r := compareCost fl m1 m2 i o in
  (0 ≤ savings r)%Qc ∧
  (savings r ≤ Math_max (model1Cost r) (model2Cost r))%Qc ∧
  (savingsPercent r = None ↔ model1Cost r = 0%Qc ∧ model2Cost r = 0%Qc) ∧
  (∀ p, savingsPercent r = Some p → (0 ≤ p)%Qc ∧ (p ≤ Q2Qc 100)%Qc).
Proof.
  intros Hi Ho. cbv zeta. unfold compareCost.
  cbn [model1Cost model2Cost savings savingsPercent].
  pose proof (estimateCost_nonneg m1 i o Hi Ho) as H1.
  pose proof (estimateCost_nonneg m2 i o Hi Ho) as H2.
  pose proof (difference_bounded _ _ H1 H2 (estimateCost_rounded m1 i o)
                (estimateCost_rounded m2 i o)) as Hd.
  set (c1 := estimateCost fl m1 i o) in *.
  set (c2 := estimateCost fl m2 i o) in *.
  assert (0 ≤ Math_abs (fl (c1 - c2)%Qc))%Qc as Ha by apply Qcabs_nonneg.
  set (a := Math_abs (fl (c1 - c2)%Qc)) in *.
  split_and!; try done.
  - unfold divide. case_decide as Hz.
    + split; [intros _|done]. by apply Math_max_zero.
    + split; [done|]. intros Hzero. by apply Math_max_zero in Hzero.
  - intros p Hp. unfold divide in Hp. case_decide as Hz; [done|].
    simplify_eq.
    assert (0 < Math_max c1 c2)%Qc as Hpos.
    { apply Qcnot_le_lt. intros Hle. apply Hz. apply Qcle_antisym; [done|].
      apply Qcle_trans with c1; [done|apply Math_max_l]. }
    assert (0 ≤ a / Math_max c1 c2)%Qc as Hq0.
    { unfold Qcdiv. apply Qcmult_nonneg_nonneg; [done|].
      by apply Qclt_le_weak, Qcinv_pos. }
    assert (a / Math_max c1 c2 ≤ 1)%Qc as Hq1.
    { unfold Qcdiv. rewrite <- (Qcmult_inv_r (Math_max c1 c2)) by done.
      apply Qcmult_le_mono_nonneg_r; [|done].
      by apply Qclt_le_weak, Qcinv_pos. }
    apply fl_nonneg in Hq0 as Hf0. apply fl_monotone in Hq1 as Hf1.
    rewrite fl_one in Hf1. split.
    + apply fl_nonneg, Qcmult_nonneg_nonneg; [done|by vm_compute].
    + rewrite <- fl_hundred at 2. apply fl_monotone.
      rewrite <- (Qcmult_1_l (Q2Qc 100)) at 2.
      apply Qcmult_le_mono_nonneg_r; [by vm_compute|done].
Qed.
End CompareCostFacts.

Lemma compareCost_symmetric_witness :
  model1Cost (compareCost no_rounding haiku opus (Q2Qc 10000) (Q2Qc 2000))
  = model2Cost (compareCost no_rounding opus haiku (Q2Qc 10000) (Q2Qc 2000))
  ∧ model2Cost (compareCost no_rounding haiku opus (Q2Qc 10000) (Q2Qc 2000))
    = model1Cost (compareCost no_rounding opus haiku (Q2Qc 10000) (Q2Qc 2000))
  ∧ savings (compareCost no_rounding haiku opus (Q2Qc 10000) (Q2Qc 2000))
    = savings (compareCost no_rounding opus haiku (Q2Qc 10000) (Q2Qc 2000))
  ∧ savingsPercent (compareCost no_rounding haiku opus (Q2Qc 10000) (Q2Qc 2000))
    = savingsPercent
        (compareCost no_rounding opus haiku (Q2Qc 10000) (Q2Qc 2000))
  ∧ savings (compareCost no_rounding haiku haiku (Q2Qc 10000) (Q2Qc 2000))
    = 0%Qc
  ∧ savingsPercent
      (compareCost no_rounding haiku haiku (Q2Qc 10000) (Q2Qc 2000))
    = (if decide (estimateCost no_rounding haiku (Q2Qc 10000) (Q2Qc 2000)
                  = 0%Qc)
       then None else Some 0%Qc).
Proof.
  apply (compareCost_symmetric no_rounding (λ x, eq_refl) haiku opus
           (Q2Qc 10000) (Q2Qc 2000)).
Defined.

Lemma compareCost_bounds_witness :
  (0 ≤ savings (compareCost no_rounding haiku opus (Q2Qc 10000) (Q2Qc 2000)))%Qc
  ∧ (savings (compareCost no_rounding haiku opus (Q2Qc 10000) (Q2Qc 2000))
     ≤ Math_max
         (model1Cost
            (compareCost no_rounding haiku opus (Q2Qc 10000) (Q2Qc 2000)))
         (model2Cost
            (compareCost no_rounding haiku opus (Q2Qc 10000) (Q2Qc 2000))))%Qc
  ∧ (savingsPercent
       (compareCost no_rounding haiku opus (Q2Qc 10000) (Q2Qc 2000)) = None
     ↔ model1Cost
         (compareCost no_rounding haiku opus (Q2Qc 10000) (Q2Qc 2000)) = 0%Qc
       ∧ model2Cost
           (compareCost no_rounding haiku opus (Q2Qc 10000) (Q2Qc 2000))
         = 0%Qc)
  ∧ (∀ p,
       savingsPercent
         (compareCost no_rounding haiku opus (Q2Qc 10000) (Q2Qc 2000))
       = Some p →
       (0 ≤ p)%Qc ∧ (p ≤ Q2Qc 100)%Qc).
Proof.
  apply (compareCost_bounds no_rounding (λ x, eq_refl) (λ x y H, H)
           (λ x, eq_refl) eq_refl eq_refl haiku opus
           (Q2Qc 10000) (Q2Qc 2000)); by vm_compute.
Defined.
